(** * KMIP sessions: a shallow embedding of [mongo/db/encryption/kmip_session.h]

    The three session classes of [mongo::encryption::detail] are embedded as
    state-passing programs over a store of exchange objects.  A session
    holds [std::shared_ptr]s to its exchanges and hands the very same
    pointers to its caller, so exchanges live in a shared store and the
    session's members are (nullable) locations into it. *)

From stdpp Require Import base tactics option list strings numbers pretty.
From Stdlib Require Import Lia ZArith.

(** ** Data model *)

(** Modelled from the spec: [KeyEntryError] is declared in a header that is
    not part of the sources at hand.  It is a closed enumeration of the
    negative answers a server can give for a key lookup: the key does not
    exist, or it exists but is not active. *)
Inductive KeyEntryError : Set :=
| kKeyDoesNotExist
| kKeyIsNotActive.

(** Modelled from the spec: [class Key] is only forward declared in the
    header; it is opaque key material. *)
Record Key : Set := mkKey { keyData : list Byte.byte }.

(** [std::variant<Key, KeyEntryError>]; a default constructed variant holds
    a default constructed first alternative. *)
Inductive KeyOrError : Set :=
| HoldsKey (k : Key)
| HoldsError (e : KeyEntryError).

Definition defaultKey : Key := mkKey [].

(** ** Outcomes of a C++ member function call

    A call returns a value, throws (the object keeps whatever was assigned
    before the throw), dies on a failed [invariant] (the process is
    terminated: there is no state afterwards), or has no defined behaviour
    (a null [shared_ptr] is dereferenced). *)

(** Modelled from the spec: the only failure the interpretation functions of
    an exchange report by throwing is a decode-level failure. *)
Inductive Exception : Set := DecodeFailure.

Inductive Result (W A : Type) : Type :=
| Returns (a : A) (w : W)
| Throws (e : Exception) (w : W)
| InvariantFailure
| Undefined.
Arguments Returns {W A} a w.
Arguments Throws {W A} e w.
Arguments InvariantFailure {W A}.
Arguments Undefined {W A}.

Definition M (W A : Type) : Type := W -> Result W A.

#[global] Instance M_ret {W} : MRet (M W) := fun A a w => Returns a w.
#[global] Instance M_bind {W} : MBind (M W) := fun A B f m w =>
  match m w with
  | Returns a w' => f a w'
  | Throws e w' => Throws e w'
  | InvariantFailure => InvariantFailure
  | Undefined => Undefined
  end.
#[global] Instance M_fmap {W} : FMap (M W) := fun A B f m =>
  a ← m; mret (f a).

(** ** Exchanges *)

Module KmipExchange.

(** Modelled from the spec: [kmip_exchange.h] is not part of the sources
    at hand.  The life cycle of an exchange moves strictly forward:
    created, request encoded, awaiting the response, response received
    and then interpreted or failed. *)
Inductive State : Set :=
| kCreated
| kRequestEncoded
| kAwaitingResponse
| kResponseReceived
| kInterpreted
| kFailed.

#[global] Instance State_eq_dec : EqDecision State.
Proof. solve_decision. Defined.

(** The four concrete exchange classes the sessions instantiate, each
    with the constructor argument it is bound to. *)
Inductive Kind : Set :=
| KmipExchangeRegisterSymmetricKey (key : Key)
| KmipExchangeActivate (keyId : string)
| KmipExchangeVerifyKeyIsActive (keyId : string)
| KmipExchangeGetSymmetricKey (keyId : string).

(** Modelled from the spec: what the transport delivers, at the level of
    the decoded outcome.  The wire encoding is outside the sessions. *)
Inductive Response : Set :=
| RegisterResponse (keyId : string)
| ActivateResponse (success : bool)
| VerifyResponse (error : option KeyEntryError)
| GetResponse (key : option Key)
| Malformed.

Record t : Set := mk {
  kind : Kind;
  _state : State;
  _response : option Response
}.

Definition create (k : Kind) : t := mk k kCreated None.

(** A response is of the expected type for the operation. *)
Definition expected (k : Kind) (r : Response) : bool :=
  match k, r with
  | KmipExchangeRegisterSymmetricKey _, RegisterResponse _ => true
  | KmipExchangeActivate _, ActivateResponse _ => true
  | KmipExchangeVerifyKeyIsActive _, VerifyResponse _ => true
  | KmipExchangeGetSymmetricKey _, GetResponse _ => true
  | _, _ => false
  end.

(** A terminal exchange is one that was interpreted or that failed. *)
Definition terminal (e : t) : bool :=
  match _state e with
  | kInterpreted | kFailed => true
  | _ => false
  end.

End KmipExchange.

Abbreviation loc := nat (only parsing).
Abbreviation Heap := (list KmipExchange.t) (only parsing).

(** The world a session method runs in: the session object itself and the
    store of exchange objects. *)
Section Prims.
Context {T : Type}.
Abbreviation World := (T * Heap)%type.

Definition load {A} (f : T -> A) : M World A :=
  fun w => Returns (f w.1) w.

Definition store (upd : T -> T) : M World unit :=
  fun w => Returns tt (upd w.1, w.2).

(** [std::make_shared<K>(arg)]: a fresh object. *)
Definition make_shared (k : KmipExchange.Kind) : M World (option loc) :=
  fun w => Returns (Some (length w.2)) (w.1, w.2 ++ [KmipExchange.create k]).

(** Modelled from the spec: [invariant(cond)] comes from a header that is
    not part of the sources at hand; a failed invariant terminates the
    program at once. *)
Definition invariant (cond : bool) : M World unit :=
  fun w => if cond then Returns tt w else InvariantFailure.

Definition throw {A} (e : Exception) : M World A :=
  fun w => Throws e w.

(** [p->]: dereferencing a null pointer is undefined. *)
Definition deref (p : option loc) : M World KmipExchange.t :=
  fun w =>
    match p with
    | None => Undefined
    | Some l =>
        match w.2 !! l with
        | Some e => Returns e w
        | None => Undefined
        end
    end.

Definition update (p : option loc) (e : KmipExchange.t) : M World unit :=
  fun w =>
    match p with
    | None => Undefined
    | Some l => Returns tt (w.1, <[l := e]> w.2)
    end.

(** [p->state()] *)
Definition state (p : option loc) : M World KmipExchange.State :=
  e ← deref p; mret (KmipExchange._state e).

(** Modelled from the spec: the interpretation functions of an exchange
    may be called only once its state is [kResponseReceived] (anything
    else fails fast); the exchange then becomes [kInterpreted], or
    [kFailed] when the function reports a decode-level failure. *)
Definition interpret {A}
    (dec : KmipExchange.Response -> option A) (p : option loc) : M World A :=
  e ← deref p;
  invariant (bool_decide (KmipExchange._state e = KmipExchange.kResponseReceived));;
  match KmipExchange._response e ≫= dec with
  | Some a =>
      update p (KmipExchange.mk (KmipExchange.kind e) KmipExchange.kInterpreted
                  (KmipExchange._response e));;
      mret a
  | None =>
      update p (KmipExchange.mk (KmipExchange.kind e) KmipExchange.kFailed
                  (KmipExchange._response e));;
      throw DecodeFailure
  end.

(** Register: the response yields the freshly assigned key identifier. *)
Definition decodeKeyId : option loc -> M World string :=
  interpret (fun r => match r with
                      | KmipExchange.RegisterResponse id => Some id
                      | _ => None
                      end).

(** Activate: any status other than success is a decode-level failure. *)
Definition verifyResponse : option loc -> M World unit :=
  interpret (fun r => match r with
                      | KmipExchange.ActivateResponse true => Some tt
                      | _ => None
                      end).

(** VerifyActive: no error means that the key exists and is active. *)
Definition decodeResponse : option loc -> M World (option KeyEntryError) :=
  interpret (fun r => match r with
                      | KmipExchange.VerifyResponse err => Some err
                      | _ => None
                      end).

(** Retrieve: the key, or nothing when the server does not know it. *)
Definition decodeKey : option loc -> M World (option Key) :=
  interpret (fun r => match r with
                      | KmipExchange.GetResponse key => Some key
                      | _ => None
                      end).
End Prims.

(** ** [KmipSessionRegisterSymmetricKey] *)

Module KmipSessionRegisterSymmetricKey.

Inductive State : Set := kNotStarted | kRegistering | kActivating | kFinished.

#[global] Instance State_eq_dec : EqDecision State.
Proof. solve_decision. Defined.

Record t : Set := mk {
  _key : Key;
  _withActivation : bool;
  _state : State;
  _register : option loc;
  _activate : option loc;
  _keyId : string
}.

Definition new (key : Key) (withActivation : bool) : t :=
  mk key withActivation kNotStarted None None "".

Definition set_state (v : State) (s : t) : t :=
  mk (_key s) (_withActivation s) v (_register s) (_activate s) (_keyId s).
Definition set_register (v : option loc) (s : t) : t :=
  mk (_key s) (_withActivation s) (_state s) v (_activate s) (_keyId s).
Definition set_activate (v : option loc) (s : t) : t :=
  mk (_key s) (_withActivation s) (_state s) (_register s) v (_keyId s).
Definition set_keyId (v : string) (s : t) : t :=
  mk (_key s) (_withActivation s) (_state s) (_register s) (_activate s) v.

Definition nextExchange : M (t * Heap) (option loc) :=
  st ← load _state;
  match st with
  | kNotStarted =>
      key ← load _key;
      p ← make_shared (KmipExchange.KmipExchangeRegisterSymmetricKey key);
      store (set_register p);;
      store (set_state kRegistering);;
      load _register
  | kRegistering =>
      reg ← load _register;
      xs ← state reg;
      invariant (bool_decide (xs = KmipExchange.kResponseReceived));;
      id ← decodeKeyId reg;
      store (set_keyId id);;
      store (set_register None);;
      withActivation ← load _withActivation;
      if negb withActivation then
        store (set_state kFinished);;
        mret None
      else
        id ← load _keyId;
        p ← make_shared (KmipExchange.KmipExchangeActivate id);
        store (set_activate p);;
        store (set_state kActivating);;
        load _activate
  | kActivating =>
      act ← load _activate;
      xs ← state act;
      invariant (bool_decide (xs = KmipExchange.kResponseReceived));;
      verifyResponse act;;
      store (set_activate None);;
      store (set_state kFinished);;
      mret None
  | kFinished =>
      mret None
  end.

Definition keyId : M (t * Heap) string :=
  st ← load _state;
  invariant (bool_decide (st = kFinished));;
  load _keyId.

End KmipSessionRegisterSymmetricKey.

(** ** [KmipSessionGetSymmetricKey] *)

Module KmipSessionGetSymmetricKey.

Inductive State : Set := kNotStarted | kVerifying | kRetrieving | kFinished.

#[global] Instance State_eq_dec : EqDecision State.
Proof. solve_decision. Defined.

Record t : Set := mk {
  _keyId : string;
  _verifyState : bool;
  _state : State;
  _verify : option loc;
  _retrieve : option loc;
  _key : KeyOrError
}.

Definition new (keyId : string) (verifyState : bool) : t :=
  mk keyId verifyState kNotStarted None None (HoldsKey defaultKey).

Definition set_state (v : State) (s : t) : t :=
  mk (_keyId s) (_verifyState s) v (_verify s) (_retrieve s) (_key s).
Definition set_verify (v : option loc) (s : t) : t :=
  mk (_keyId s) (_verifyState s) (_state s) v (_retrieve s) (_key s).
Definition set_retrieve (v : option loc) (s : t) : t :=
  mk (_keyId s) (_verifyState s) (_state s) (_verify s) v (_key s).
Definition set_key (v : KeyOrError) (s : t) : t :=
  mk (_keyId s) (_verifyState s) (_state s) (_verify s) (_retrieve s) v.

(** The lambda at the top of [nextExchange]. *)
Definition transitionToRetrievingState : M (t * Heap) (option loc) :=
  id ← load _keyId;
  p ← make_shared (KmipExchange.KmipExchangeGetSymmetricKey id);
  store (set_retrieve p);;
  store (set_state kRetrieving);;
  load _retrieve.

Definition nextExchange : M (t * Heap) (option loc) :=
  st ← load _state;
  match st with
  | kNotStarted =>
      verifyState ← load _verifyState;
      if (verifyState : bool) then
        id ← load _keyId;
        p ← make_shared (KmipExchange.KmipExchangeVerifyKeyIsActive id);
        store (set_verify p);;
        store (set_state kVerifying);;
        load _verify
      else
        transitionToRetrievingState
  | kVerifying =>
      ver ← load _verify;
      xs ← state ver;
      invariant (bool_decide (xs = KmipExchange.kResponseReceived));;
      error ← decodeResponse ver;
      match error with
      | Some e =>
          store (set_key (HoldsError e));;
          store (set_state kFinished);;
          store (set_verify None);;
          mret None
      | None =>
          store (set_verify None);;
          transitionToRetrievingState
      end
  | kRetrieving =>
      ret ← load _retrieve;
      xs ← state ret;
      invariant (bool_decide (xs = KmipExchange.kResponseReceived));;
      key ← decodeKey ret;
      match key return M (t * Heap) unit with
      | Some k => store (set_key (HoldsKey k))
      | None => store (set_key (HoldsError kKeyDoesNotExist))
      end;;
      store (set_retrieve None);;
      store (set_state kFinished);;
      mret None
  | kFinished =>
      mret None
  end.

Definition key : M (t * Heap) KeyOrError :=
  st ← load _state;
  invariant (bool_decide (st = kFinished));;
  load _key.

End KmipSessionGetSymmetricKey.

(** ** [KmipSessionVerifyKeyIsActive] *)

Module KmipSessionVerifyKeyIsActive.

Inductive State : Set := kNotStarted | kVerifying | kFinished.

#[global] Instance State_eq_dec : EqDecision State.
Proof. solve_decision. Defined.

Record t : Set := mk {
  _keyId : string;
  _state : State;
  _verify : option loc;
  _error : option KeyEntryError
}.

Definition new (keyId : string) : t := mk keyId kNotStarted None None.

Definition set_state (v : State) (s : t) : t :=
  mk (_keyId s) v (_verify s) (_error s).
Definition set_verify (v : option loc) (s : t) : t :=
  mk (_keyId s) (_state s) v (_error s).
Definition set_error (v : option KeyEntryError) (s : t) : t :=
  mk (_keyId s) (_state s) (_verify s) v.

Definition nextExchange : M (t * Heap) (option loc) :=
  st ← load _state;
  match st with
  | kNotStarted =>
      id ← load _keyId;
      p ← make_shared (KmipExchange.KmipExchangeVerifyKeyIsActive id);
      store (set_verify p);;
      store (set_state kVerifying);;
      load _verify
  | kVerifying =>
      ver ← load _verify;
      xs ← state ver;
      invariant (bool_decide (xs = KmipExchange.kResponseReceived));;
      err ← decodeResponse ver;
      store (set_error err);;
      store (set_state kFinished);;
      store (set_verify None);;
      mret None
  | kFinished =>
      mret None
  end.

Definition error : M (t * Heap) (option KeyEntryError) :=
  st ← load _state;
  invariant (bool_decide (st = kFinished));;
  load _error.

End KmipSessionVerifyKeyIsActive.

(** ** The abstract interface [KmipSession] *)

Inductive KmipSession : Set :=
| RegisterSymmetricKey (s : KmipSessionRegisterSymmetricKey.t)
| GetSymmetricKey (s : KmipSessionGetSymmetricKey.t)
| VerifyKeyIsActive (s : KmipSessionVerifyKeyIsActive.t).

(** Runs a method of a concrete class on an object seen through the base
    class. *)
Definition upcast {T A} (inj : T -> KmipSession) (m : M (T * Heap) A) (s : T)
    : M (KmipSession * Heap) A :=
  fun w =>
    match m (s, w.2) with
    | Returns a w' => Returns a (inj w'.1, w'.2)
    | Throws e w' => Throws e (inj w'.1, w'.2)
    | InvariantFailure => InvariantFailure
    | Undefined => Undefined
    end.

(** The virtual call [session->nextExchange()]. *)
Definition nextExchange : M (KmipSession * Heap) (option loc) :=
  fun w =>
    match w.1 with
    | RegisterSymmetricKey s =>
        upcast RegisterSymmetricKey KmipSessionRegisterSymmetricKey.nextExchange s w
    | GetSymmetricKey s =>
        upcast GetSymmetricKey KmipSessionGetSymmetricKey.nextExchange s w
    | VerifyKeyIsActive s =>
        upcast VerifyKeyIsActive KmipSessionVerifyKeyIsActive.nextExchange s w
    end.

(** What the accessor of a finished session hands out. *)
Inductive Terminal : Set :=
| KeyId (id : string)
| KeyResult (k : KeyOrError)
| ErrorResult (e : option KeyEntryError).

(** The accessor of each class: [keyId()], [key()] or [error()]. *)
Definition accessor : M (KmipSession * Heap) Terminal :=
  fun w =>
    match w.1 with
    | RegisterSymmetricKey s =>
        upcast RegisterSymmetricKey
          (KeyId <$> KmipSessionRegisterSymmetricKey.keyId) s w
    | GetSymmetricKey s =>
        upcast GetSymmetricKey
          (KeyResult <$> KmipSessionGetSymmetricKey.key) s w
    | VerifyKeyIsActive s =>
        upcast VerifyKeyIsActive
          (ErrorResult <$> KmipSessionVerifyKeyIsActive.error) s w
    end.

Definition notStarted (s : KmipSession) : bool :=
  match s with
  | RegisterSymmetricKey s =>
      bool_decide (KmipSessionRegisterSymmetricKey._state s
                   = KmipSessionRegisterSymmetricKey.kNotStarted)
  | GetSymmetricKey s =>
      bool_decide (KmipSessionGetSymmetricKey._state s
                   = KmipSessionGetSymmetricKey.kNotStarted)
  | VerifyKeyIsActive s =>
      bool_decide (KmipSessionVerifyKeyIsActive._state s
                   = KmipSessionVerifyKeyIsActive.kNotStarted)
  end.

Definition finished (s : KmipSession) : bool :=
  match s with
  | RegisterSymmetricKey s =>
      bool_decide (KmipSessionRegisterSymmetricKey._state s
                   = KmipSessionRegisterSymmetricKey.kFinished)
  | GetSymmetricKey s =>
      bool_decide (KmipSessionGetSymmetricKey._state s
                   = KmipSessionGetSymmetricKey.kFinished)
  | VerifyKeyIsActive s =>
      bool_decide (KmipSessionVerifyKeyIsActive._state s
                   = KmipSessionVerifyKeyIsActive.kFinished)
  end.

(** The exchange pointers a session holds that are not null. *)
Definition held (s : KmipSession) : list loc :=
  match s with
  | RegisterSymmetricKey s =>
      option_list (KmipSessionRegisterSymmetricKey._register s)
      ++ option_list (KmipSessionRegisterSymmetricKey._activate s)
  | GetSymmetricKey s =>
      option_list (KmipSessionGetSymmetricKey._verify s)
      ++ option_list (KmipSessionGetSymmetricKey._retrieve s)
  | VerifyKeyIsActive s =>
      option_list (KmipSessionVerifyKeyIsActive._verify s)
  end.

(** A freshly constructed session: the constructor arguments, the initial
    state and value initialised members. *)
Inductive Constructed : KmipSession -> Prop :=
| construct_register key withActivation :
    Constructed (RegisterSymmetricKey
                   (KmipSessionRegisterSymmetricKey.new key withActivation))
| construct_get keyId verifyState :
    Constructed (GetSymmetricKey
                   (KmipSessionGetSymmetricKey.new keyId verifyState))
| construct_verify keyId :
    Constructed (VerifyKeyIsActive (KmipSessionVerifyKeyIsActive.new keyId)).

(** ** The driver

    Modelled from the spec: the caller that owns the transport is not part
    of the sources at hand.  It asks the session for the next exchange,
    encodes its request, sends it, and feeds the response into the same
    exchange object; each of these may be called in one state of the
    exchange only. *)
Section Driver.
Context {T : Type}.

Definition advance (from to : KmipExchange.State)
    (r : KmipExchange.t -> option KmipExchange.Response) (p : option loc)
    : M (T * Heap) unit :=
  e ← deref p;
  invariant (bool_decide (KmipExchange._state e = from));;
  update p (KmipExchange.mk (KmipExchange.kind e) to (r e)).

Definition encodeRequest : option loc -> M (T * Heap) unit :=
  advance KmipExchange.kCreated KmipExchange.kRequestEncoded
    KmipExchange._response.

Definition requestSent : option loc -> M (T * Heap) unit :=
  advance KmipExchange.kRequestEncoded KmipExchange.kAwaitingResponse
    KmipExchange._response.

Definition ingestResponse (p : option loc) (r : KmipExchange.Response)
    : M (T * Heap) unit :=
  e ← deref p;
  if KmipExchange.expected (KmipExchange.kind e) r then
    advance KmipExchange.kAwaitingResponse KmipExchange.kResponseReceived
      (fun _ => Some r) p
  else
    advance KmipExchange.kAwaitingResponse KmipExchange.kFailed
      (fun _ => Some r) p.
End Driver.

(** The session, the exchange objects and the wall clock. *)
Record System : Set := mkSystem {
  session : KmipSession;
  heap : Heap;
  clock : nat
}.

Definition start (s : KmipSession) (now : nat) : System := mkSystem s [] now.

Inductive Event : Set :=
| NextExchange
| EncodeRequest (l : loc)
| RequestSent (l : loc)
| IngestResponse (l : loc) (r : KmipExchange.Response)
| Elapse (dt : nat).

(** One event.  [None]: the process was terminated (or the behaviour is
    undefined).  An exception leaves the objects as they were when it was
    thrown.  The first component is the exchange handed to the driver. *)
Definition outcome {A} (now : nat) (ret : A -> option loc)
    (r : Result (KmipSession * Heap) A) : option (option loc * System) :=
  match r with
  | Returns a w => Some (ret a, mkSystem w.1 w.2 now)
  | Throws _ w => Some (None, mkSystem w.1 w.2 now)
  | InvariantFailure | Undefined => None
  end.

Definition step (ev : Event) (sys : System) : option (option loc * System) :=
  let w := (session sys, heap sys) in
  match ev with
  | NextExchange => outcome (clock sys) id (nextExchange w)
  | EncodeRequest l => outcome (clock sys) (fun _ => None) (encodeRequest (Some l) w)
  | RequestSent l => outcome (clock sys) (fun _ => None) (requestSent (Some l) w)
  | IngestResponse l r =>
      outcome (clock sys) (fun _ => None) (ingestResponse (Some l) r w)
  | Elapse dt => Some (None, mkSystem (session sys) (heap sys) (clock sys + dt))
  end.

Fixpoint run (evs : list Event) (sys : System) : option System :=
  match evs with
  | [] => Some sys
  | ev :: evs' =>
      match step ev sys with
      | Some (_, sys') => run evs' sys'
      | None => None
      end
  end.

(** The kinds of the exchanges [nextExchange()] returned, in order. *)
Definition kindAt (h : Heap) (p : option loc) : list KmipExchange.Kind :=
  match p ≫= (h !!.) with
  | Some e => [KmipExchange.kind e]
  | None => []
  end.

Fixpoint exchanges (evs : list Event) (sys : System) : list KmipExchange.Kind :=
  match evs with
  | [] => []
  | ev :: evs' =>
      match step ev sys with
      | Some (p, sys') => kindAt (heap sys') p ++ exchanges evs' sys'
      | None => []
      end
  end.

(** The driver loop: every exchange the session returns is encoded, sent
    and answered by the next canned response, until [nextExchange()]
    returns null. *)
Definition roundTrip (l : loc) (r : KmipExchange.Response) : list Event :=
  [EncodeRequest l; RequestSent l; IngestResponse l r].

Inductive Verdict : Set :=
| Completed (sys : System)
| Failed (e : Exception) (sys : System)
| Starved (sys : System)
| Crashed.

Fixpoint drive (responses : list KmipExchange.Response) (sys : System)
    : list KmipExchange.Kind * Verdict :=
  match nextExchange (session sys, heap sys) with
  | Returns None w => ([], Completed (mkSystem w.1 w.2 (clock sys)))
  | Returns (Some l) w =>
      let sys1 := mkSystem w.1 w.2 (clock sys) in
      let rest :=
        match responses with
        | [] => ([], Starved sys1)
        | r :: responses' =>
            match run (roundTrip l r) sys1 with
            | Some sys2 => drive responses' sys2
            | None => ([], Crashed)
            end
        end in
      (kindAt w.2 (Some l) ++ rest.1, rest.2)
  | Throws e w => ([], Failed e (mkSystem w.1 w.2 (clock sys)))
  | InvariantFailure | Undefined => ([], Crashed)
  end.

(** Events other than the passing of time. *)
Fixpoint untimed (evs : list Event) : list Event :=
  match evs with
  | [] => []
  | Elapse _ :: evs' => untimed evs'
  | ev :: evs' => ev :: untimed evs'
  end.

(** The exchanges a session asks for, read off the constructor arguments
    and the answers of the server alone. *)
Definition expectedKinds (s : KmipSession) (responses : list KmipExchange.Response)
    : list KmipExchange.Kind :=
  match s with
  | RegisterSymmetricKey s =>
      KmipExchange.KmipExchangeRegisterSymmetricKey
        (KmipSessionRegisterSymmetricKey._key s)
      :: match responses with
         | KmipExchange.RegisterResponse id :: _ =>
             if KmipSessionRegisterSymmetricKey._withActivation s
             then [KmipExchange.KmipExchangeActivate id] else []
         | _ => []
         end
  | GetSymmetricKey s =>
      let keyId := KmipSessionGetSymmetricKey._keyId s in
      if KmipSessionGetSymmetricKey._verifyState s then
        KmipExchange.KmipExchangeVerifyKeyIsActive keyId
        :: match responses with
           | KmipExchange.VerifyResponse None :: _ =>
               [KmipExchange.KmipExchangeGetSymmetricKey keyId]
           | _ => []
           end
      else [KmipExchange.KmipExchangeGetSymmetricKey keyId]
  | VerifyKeyIsActive s =>
      [KmipExchange.KmipExchangeVerifyKeyIsActive
         (KmipSessionVerifyKeyIsActive._keyId s)]
  end.

(** ** Reachable states

    The shape of a session and of its exchanges after any number of calls
    and deliveries, for each class. *)

(** An exchange whose response was received holds a response of the type
    its operation expects. *)
Definition received_ok (e : KmipExchange.t) : Prop :=
  KmipExchange._state e = KmipExchange.kResponseReceived ->
  exists r, KmipExchange._response e = Some r
            /\ KmipExchange.expected (KmipExchange.kind e) r = true.

Definition interpreted (k : KmipExchange.Kind) (r : KmipExchange.Response)
    : KmipExchange.t :=
  KmipExchange.mk k KmipExchange.kInterpreted (Some r).

Definition keyOrError (k : option Key) : KeyOrError :=
  match k with
  | Some k => HoldsKey k
  | None => HoldsError kKeyDoesNotExist
  end.

Inductive RegisterInv (key : Key) (wa : bool)
    : KmipSessionRegisterSymmetricKey.t -> Heap -> Prop :=
| register_notStarted :
    RegisterInv key wa (KmipSessionRegisterSymmetricKey.new key wa) []
| register_registering e :
    KmipExchange.kind e = KmipExchange.KmipExchangeRegisterSymmetricKey key ->
    received_ok e ->
    RegisterInv key wa
      (KmipSessionRegisterSymmetricKey.mk key wa
         KmipSessionRegisterSymmetricKey.kRegistering (Some 0) None "")
      [e]
| register_activating id e :
    wa = true ->
    KmipExchange.kind e = KmipExchange.KmipExchangeActivate id ->
    received_ok e ->
    RegisterInv key wa
      (KmipSessionRegisterSymmetricKey.mk key wa
         KmipSessionRegisterSymmetricKey.kActivating None (Some 1) id)
      [interpreted (KmipExchange.KmipExchangeRegisterSymmetricKey key)
         (KmipExchange.RegisterResponse id); e]
| register_finished id :
    RegisterInv key wa
      (KmipSessionRegisterSymmetricKey.mk key wa
         KmipSessionRegisterSymmetricKey.kFinished None None id)
      (interpreted (KmipExchange.KmipExchangeRegisterSymmetricKey key)
         (KmipExchange.RegisterResponse id)
       :: if wa then [interpreted (KmipExchange.KmipExchangeActivate id)
                        (KmipExchange.ActivateResponse true)]
          else []).

(** The exchanges of a [KmipSessionGetSymmetricKey] that precede the
    retrieval. *)
Definition verifiedActive (keyId : string) (vs : bool) : Heap :=
  if vs then [interpreted (KmipExchange.KmipExchangeVerifyKeyIsActive keyId)
                (KmipExchange.VerifyResponse None)]
  else [].

Inductive GetInv (keyId : string) (vs : bool)
    : KmipSessionGetSymmetricKey.t -> Heap -> Prop :=
| get_notStarted :
    GetInv keyId vs (KmipSessionGetSymmetricKey.new keyId vs) []
| get_verifying e :
    vs = true ->
    KmipExchange.kind e = KmipExchange.KmipExchangeVerifyKeyIsActive keyId ->
    received_ok e ->
    GetInv keyId vs
      (KmipSessionGetSymmetricKey.mk keyId vs
         KmipSessionGetSymmetricKey.kVerifying (Some 0) None
         (HoldsKey defaultKey))
      [e]
| get_retrieving e :
    KmipExchange.kind e = KmipExchange.KmipExchangeGetSymmetricKey keyId ->
    received_ok e ->
    GetInv keyId vs
      (KmipSessionGetSymmetricKey.mk keyId vs
         KmipSessionGetSymmetricKey.kRetrieving None
         (Some (length (verifiedActive keyId vs))) (HoldsKey defaultKey))
      (verifiedActive keyId vs ++ [e])
| get_finished_error err :
    vs = true ->
    GetInv keyId vs
      (KmipSessionGetSymmetricKey.mk keyId vs
         KmipSessionGetSymmetricKey.kFinished None None (HoldsError err))
      [interpreted (KmipExchange.KmipExchangeVerifyKeyIsActive keyId)
         (KmipExchange.VerifyResponse (Some err))]
| get_finished k :
    GetInv keyId vs
      (KmipSessionGetSymmetricKey.mk keyId vs
         KmipSessionGetSymmetricKey.kFinished None None (keyOrError k))
      (verifiedActive keyId vs
       ++ [interpreted (KmipExchange.KmipExchangeGetSymmetricKey keyId)
             (KmipExchange.GetResponse k)]).

Inductive VerifyInv (keyId : string)
    : KmipSessionVerifyKeyIsActive.t -> Heap -> Prop :=
| verify_notStarted :
    VerifyInv keyId (KmipSessionVerifyKeyIsActive.new keyId) []
| verify_verifying e :
    KmipExchange.kind e = KmipExchange.KmipExchangeVerifyKeyIsActive keyId ->
    received_ok e ->
    VerifyInv keyId
      (KmipSessionVerifyKeyIsActive.mk keyId
         KmipSessionVerifyKeyIsActive.kVerifying (Some 0) None)
      [e]
| verify_finished err :
    VerifyInv keyId
      (KmipSessionVerifyKeyIsActive.mk keyId
         KmipSessionVerifyKeyIsActive.kFinished None err)
      [interpreted (KmipExchange.KmipExchangeVerifyKeyIsActive keyId)
         (KmipExchange.VerifyResponse err)].

(** [Inv s0 s h]: the session [s] and the exchanges [h] can be what became
    of the freshly constructed session [s0]. *)
Inductive Inv : KmipSession -> KmipSession -> Heap -> Prop :=
| inv_register key wa s h :
    RegisterInv key wa s h ->
    Inv (RegisterSymmetricKey (KmipSessionRegisterSymmetricKey.new key wa))
        (RegisterSymmetricKey s) h
| inv_get keyId vs s h :
    GetInv keyId vs s h ->
    Inv (GetSymmetricKey (KmipSessionGetSymmetricKey.new keyId vs))
        (GetSymmetricKey s) h
| inv_verify keyId s h :
    VerifyInv keyId s h ->
    Inv (VerifyKeyIsActive (KmipSessionVerifyKeyIsActive.new keyId))
        (VerifyKeyIsActive s) h.

(** An exchange the session points to that is neither interpreted nor
    failed. *)
Definition nonTerminalAt (h : Heap) (l : loc) : bool :=
  match h !! l with
  | Some e => negb (KmipExchange.terminal e)
  | None => false
  end.

(** ** Sample objects *)

Definition sampleKey : Key := mkKey [Byte.x2a; Byte.x17].

Definition sampleRegister (withActivation : bool) : KmipSession :=
  RegisterSymmetricKey (KmipSessionRegisterSymmetricKey.new sampleKey withActivation).

Definition sampleGet (verifyState : bool) : KmipSession :=
  GetSymmetricKey (KmipSessionGetSymmetricKey.new "key-7" verifyState).

Definition sampleVerify : KmipSession :=
  VerifyKeyIsActive (KmipSessionVerifyKeyIsActive.new "key-7").

(** One call and the delivery of the response to the exchange at [l]. *)
Definition exchangeWith (l : loc) (r : KmipExchange.Response) : list Event :=
  NextExchange :: roundTrip l r.


(** * The outcomes of [nextExchange()] *)
Inductive ConstructorArgs : Set :=
| RegisterArgs (key : Key) (withActivation : bool)
| GetArgs (keyId : string) (verifyState : bool)
| VerifyArgs (keyId : string).

Definition args (s : KmipSession) : ConstructorArgs :=
  match s with
  | RegisterSymmetricKey s =>
      RegisterArgs (KmipSessionRegisterSymmetricKey._key s)
        (KmipSessionRegisterSymmetricKey._withActivation s)
  | GetSymmetricKey s =>
      GetArgs (KmipSessionGetSymmetricKey._keyId s)
        (KmipSessionGetSymmetricKey._verifyState s)
  | VerifyKeyIsActive s => VerifyArgs (KmipSessionVerifyKeyIsActive._keyId s)
  end.

(** The value of the state enumerator ([std::uint8_t]). *)
Definition stateValue (s : KmipSession) : nat :=
  match s with
  | RegisterSymmetricKey s =>
      match KmipSessionRegisterSymmetricKey._state s with
      | KmipSessionRegisterSymmetricKey.kNotStarted => 0
      | KmipSessionRegisterSymmetricKey.kRegistering => 1
      | KmipSessionRegisterSymmetricKey.kActivating => 2
      | KmipSessionRegisterSymmetricKey.kFinished => 3
      end
  | GetSymmetricKey s =>
      match KmipSessionGetSymmetricKey._state s with
      | KmipSessionGetSymmetricKey.kNotStarted => 0
      | KmipSessionGetSymmetricKey.kVerifying => 1
      | KmipSessionGetSymmetricKey.kRetrieving => 2
      | KmipSessionGetSymmetricKey.kFinished => 3
      end
  | VerifyKeyIsActive s =>
      match KmipSessionVerifyKeyIsActive._state s with
      | KmipSessionVerifyKeyIsActive.kNotStarted => 0
      | KmipSessionVerifyKeyIsActive.kVerifying => 1
      | KmipSessionVerifyKeyIsActive.kFinished => 2
      end
  end.

(** The exchange pointer that [nextExchange()] dereferences in the state
    the session is in. *)
Definition current (s : KmipSession) : option loc :=
  match s with
  | RegisterSymmetricKey s =>
      match KmipSessionRegisterSymmetricKey._state s with
      | KmipSessionRegisterSymmetricKey.kRegistering =>
          KmipSessionRegisterSymmetricKey._register s
      | KmipSessionRegisterSymmetricKey.kActivating =>
          KmipSessionRegisterSymmetricKey._activate s
      | _ => None
      end
  | GetSymmetricKey s =>
      match KmipSessionGetSymmetricKey._state s with
      | KmipSessionGetSymmetricKey.kVerifying =>
          KmipSessionGetSymmetricKey._verify s
      | KmipSessionGetSymmetricKey.kRetrieving =>
          KmipSessionGetSymmetricKey._retrieve s
      | _ => None
      end
  | VerifyKeyIsActive s =>
      match KmipSessionVerifyKeyIsActive._state s with
      | KmipSessionVerifyKeyIsActive.kVerifying =>
          KmipSessionVerifyKeyIsActive._verify s
      | _ => None
      end
  end.

Definition setState (st : KmipExchange.State) (e : KmipExchange.t)
    : KmipExchange.t :=
  KmipExchange.mk (KmipExchange.kind e) st (KmipExchange._response e).

(** Everything a call of [nextExchange()] on the session [s] with the
    exchanges [h] can result in. *)
Inductive NextOutcome (s : KmipSession) (h : Heap)
    : Result (KmipSession * Heap) (option loc) -> Prop :=
| next_done :
    finished s = true ->
    NextOutcome s h (Returns None (s, h))
| next_first k s' :
    notStarted s = true ->
    args s' = args s -> stateValue s < stateValue s' ->
    finished s' = false -> current s' = Some (length h) ->
    NextOutcome s h (Returns (Some (length h)) (s', h ++ [KmipExchange.create k]))
| next_more l e k s' :
    current s = Some l -> h !! l = Some e -> KmipExchange._state e = KmipExchange.kResponseReceived ->
    args s' = args s -> stateValue s < stateValue s' ->
    finished s' = false -> current s' = Some (length h) ->
    NextOutcome s h
      (Returns (Some (length h))
         (s', <[l := setState KmipExchange.kInterpreted e]> h
              ++ [KmipExchange.create k]))
| next_last l e s' :
    current s = Some l -> h !! l = Some e -> KmipExchange._state e = KmipExchange.kResponseReceived ->
    args s' = args s -> stateValue s < stateValue s' ->
    finished s' = true ->
    NextOutcome s h (Returns None (s', <[l := setState KmipExchange.kInterpreted e]> h))
| next_throws l e :
    current s = Some l -> h !! l = Some e -> KmipExchange._state e = KmipExchange.kResponseReceived ->
    NextOutcome s h (Throws DecodeFailure (s, <[l := setState KmipExchange.kFailed e]> h))
| next_invariant l e :
    current s = Some l -> h !! l = Some e -> KmipExchange._state e <> KmipExchange.kResponseReceived ->
    NextOutcome s h InvariantFailure
| next_undefined :
    notStarted s = false -> finished s = false ->
    current s ≫= (h !!.) = None ->
    NextOutcome s h Undefined.

(** The objects after a call that returned or threw. *)
Definition after {W A} (r : Result W A) : option W :=
  match r with
  | Returns _ w | Throws _ w => Some w
  | InvariantFailure | Undefined => None
  end.

(** The number of exchanges the constructor arguments allow for. *)
Definition exchangeBudget (s : KmipSession) : nat :=
  match args s with
  | RegisterArgs _ withActivation => if withActivation then 2 else 1
  | GetArgs _ verifyState => if verifyState then 2 else 1
  | VerifyArgs _ => 1
  end.

Definition sampleRegistering : KmipSession :=
  RegisterSymmetricKey
    (KmipSessionRegisterSymmetricKey.mk sampleKey true
       KmipSessionRegisterSymmetricKey.kRegistering (Some 0) None "").

Definition sampleReceived (r : KmipExchange.Response) : Heap :=
  [KmipExchange.mk (KmipExchange.KmipExchangeRegisterSymmetricKey sampleKey)
     KmipExchange.kResponseReceived (Some r)].

(** * Machine integers *)

Definition INT_MIN : Z := -2147483648.
Definition INT_MAX : Z := 2147483647.

(** * The helpers of [mongo/s/chunk_manager_refresh_bm.cpp] *)

Module ChunkManagerRefreshBm.

(** A helper returns, fails an [invariant], or has no defined behaviour;
    it works on no object, so the world is [unit]. *)
Definition check (cond : bool) : M unit unit :=
  fun w => if cond then Returns tt w else InvariantFailure.

Definition defined (cond : bool) : M unit unit :=
  fun w => if cond then Returns tt w else Undefined.

(** ** [int] arithmetic: a result out of range is undefined *)

Definition int (z : Z) : M unit Z :=
  defined (bool_decide (INT_MIN <= z <= INT_MAX)%Z);; mret z.

(** [a % b] on [int]: truncating; undefined for a zero divisor and for
    [INT_MIN % -1]. *)
Definition rem (a b : Z) : M unit Z :=
  defined (bool_decide (b <> 0 /\ ~ (a = INT_MIN /\ b = -1))%Z);;
  mret (Z.rem a b).

(** [a / b] and [a % b] on [int64_t], for operands that come from [int]s:
    truncating; undefined for a zero divisor. *)
Definition quot64 (a b : Z) : M unit Z :=
  defined (bool_decide (b <> 0%Z));; mret (Z.quot a b).

Definition rem64 (a b : Z) : M unit Z :=
  defined (bool_decide (b <> 0%Z));; mret (Z.rem a b).


(** ** Shards and ranges *)

Definition ShardId : Set := string.

(** [str::stream() << "shard_" << i] *)
Definition getShardId (i : Z) : ShardId := "shard_" +:+ pretty i.

(** The three documents the helpers build: [BSON("_id" << MINKEY)],
    [BSON("_id" << n)] and [BSON("_id" << MAXKEY)]. *)
Inductive ShardKey : Set :=
| MinKey
| Number (n : Z)
| MaxKey.

Record ChunkRange : Set := mkChunkRange { getMin : ShardKey; getMax : ShardKey }.

Definition getRangeForChunk (i nChunks : Z) : M unit ChunkRange :=
  check (bool_decide (i >= 0)%Z);;
  check (bool_decide (nChunks > 0)%Z);;
  check (bool_decide (i < nChunks)%Z);;
  min ← (if bool_decide (i = 0%Z) then mret MinKey
         else d ← int (i - 1); n ← int (d * 100); mret (Number n));
  last ← int (nChunks - 1);
  max ← (if bool_decide (i = last) then mret MaxKey
         else n ← int (i * 100); mret (Number n));
  mret (mkChunkRange min max).


(** The product and the quotient are computed in [int64_t], where two
    [int]s cannot overflow. *)
Definition optimalShardSelector (i nShards nChunks : Z) : M unit ShardId :=
  check (bool_decide (nShards <= nChunks)%Z);;
  q ← quot64 (i * nShards) nChunks;
  shardNum ← rem64 q nShards;
  mret (getShardId shardNum).

(** ** The chunks of a routing table

    The loop that fills [chunks] in [makeChunkManagerWithShardSelector],
    [BM_FullBuildOfChunkManager] and [BM_GetNextOrphanedRange]; [i] and
    [nChunks] are [uint32_t] there.  [RoutingTableHistory::makeNew], which
    consumes the chunks, is not part of the sources at hand. *)



Section Chunks.
Variable selectShard : Z -> Z -> Z -> M unit ShardId.
Variables (collName : string) (collEpoch : Z) (nShards nChunks : Z).


End Chunks.


(** ** [makeRanges]

    [BSONObj] and its comparator are not part of the sources at hand: the
    keys are of any type, compared by [woCompare]. *)
Section Ranges.
Context {K : Type}.
Variable woCompare : K -> K -> Z.

(** The loop from the index of the first key of [keys] on; [keys[i + 1]]
    past the end is undefined. *)
Fixpoint rangesFrom (keys : list K) (ranges : list (K * K))
    : M unit (list (K * K)) :=
  match keys with
  | [] => mret ranges
  | [_] => fun _ => Undefined
  | k1 :: k2 :: keys' =>
      if bool_decide (woCompare k1 k2 = 0)%Z then rangesFrom keys' ranges
      else if bool_decide (woCompare k1 k2 > 0)%Z
           then rangesFrom keys' (ranges ++ [(k2, k1)])
           else rangesFrom keys' (ranges ++ [(k1, k2)])
  end.

Definition makeRanges (keys : list K) : M unit (list (K * K)) :=
  rangesFrom keys [].
End Ranges.

End ChunkManagerRefreshBm.

(** ** [CircularIterator]: iterators are positions in the container *)

Module CircularIterator.
Section CircularIterator.
Context {A : Type}.

Record t : Type := mk {
  container : list A;
  _begin : nat;
  _end : nat;
  _curr : nat
}.

Definition new (c : list A) : M unit t :=
  let it := mk c 0 (length c) 0 in
  ChunkManagerRefreshBm.check (bool_decide (_begin it <> _end it));;
  mret it.

(** [operator*] *)
Definition deref (it : t) : M unit A :=
  match container it !! _curr it with
  | Some a => mret a
  | None => fun _ => Undefined
  end.

(** [operator++()] *)
Definition preIncrement (it : t) : t :=
  let curr := S (_curr it) in
  if bool_decide (curr = _end it)
  then mk (container it) (_begin it) (_end it) (_begin it)
  else mk (container it) (_begin it) (_end it) curr.

(** [operator++(int)]: the result and the iterator afterwards. *)
Definition postIncrement (it : t) : t * t :=
  let result := it in
  (result, preIncrement it).
End CircularIterator.
End CircularIterator.

(** * [mongo/db/concurrency/exception_util.h] *)

Module ErrorCodes.
(** The error codes the header names; all others are told apart by their
    number. *)
Inductive Error : Set :=
| WriteConflict
| TemporarilyUnavailable
| TransactionTooLargeForCache
| OtherError (code : Z).
End ErrorCodes.

(** An exception of the server, [ExceptionFor<ec>]: its code and reason. *)
Record DBException : Set := mkDBException {
  code : ErrorCodes.Error;
  reason : string
}.

Module error_details.
(** The exception [throwExceptionFor<ec>(reason)] throws. *)
Definition throwExceptionFor (ec : ErrorCodes.Error) (reason : string)
    : DBException :=
  mkDBException ec reason.
End error_details.

(** The exceptions the three [[noreturn]] helpers throw. *)
Definition throwWriteConflictException (context : string) : DBException :=
  error_details.throwExceptionFor ErrorCodes.WriteConflict
    ("Caused by :: " +:+ context
     +:+ " :: Please retry your operation or multi-document transaction.").

Definition throwTemporarilyUnavailableException (context : string)
    : DBException :=
  error_details.throwExceptionFor ErrorCodes.TemporarilyUnavailable context.

Definition throwTransactionTooLargeForCache (context : string) : DBException :=
  error_details.throwExceptionFor ErrorCodes.TransactionTooLargeForCache context.

Module WriteConflictRetry.

(** What [writeConflictRetry] reads of the operation context; a null
    pointer is [None] or [false]. *)
Record Locker : Set := mkLocker { inAWriteUnitOfWork : bool }.

Record OperationContext : Set := mkOperationContext {
  lockState : option Locker;
  recoveryUnit : bool;
  isFromUserConnection : bool;
  inMultiDocumentTransaction : bool
}.

(** The calls [writeConflictRetry] makes besides [f], in order. *)
Inductive Effect : Set :=
| IncrementWriteConflicts (n : Z)
| LogWriteConflictAndBackoff (attempt : Z) (operation reason ns : string)
| AbandonSnapshot
| HandleTemporarilyUnavailable (attempts : Z) (opStr ns : string)
    (e : DBException)
| HandleTemporarilyUnavailableInTransaction (opStr ns : string)
    (e : DBException)
| HandleTransactionTooLargeForCache (writeConflictAttempts : Z)
    (opStr ns : string) (e : DBException).

Inductive Outcome (A : Type) : Type :=
| Returned (a : A)
| Thrown (e : DBException)
| InvariantFailed
| UndefinedBehaviour.
Arguments Returned {A} a.
Arguments Thrown {A} e.
Arguments InvariantFailed {A}.
Arguments UndefinedBehaviour {A}.

(** The outcome, how often [f] was called, and the other calls made. *)
Record Run (A : Type) : Type := mkRun {
  outcome : Outcome A;
  calls : nat;
  effects : list Effect
}.
Arguments mkRun {A} outcome calls effects.
Arguments outcome {A} r.
Arguments calls {A} r.
Arguments effects {A} r.

Section WriteConflictRetry.
Context {A : Type}.

(** [f] is called again and again: [f n] is what its call number [n]
    does, a return or an exception. *)
Variable f : nat -> DBException + A.

(** [skipWriteConflictRetries.shouldFail()] *)
Variable shouldFail : bool.

(** The handlers are declared in the header and defined elsewhere: each
    returns ([None], or the counter it leaves in
    [*writeConflictAttempts]) or throws. *)
Variable handleTemporarilyUnavailableException :
  OperationContext -> Z -> string -> string -> DBException -> option DBException.
Variable handleTemporarilyUnavailableExceptionInTransaction :
  OperationContext -> string -> string -> DBException -> option DBException.
Variable handleTransactionTooLargeForCacheException :
  OperationContext -> Z -> string -> string -> DBException -> DBException + Z.

Variables (opStr ns : string).

(** The [while (true)] loop, for at most [fuel] iterations.  The counters
    are [int]s: incrementing [INT_MAX] is undefined. *)
Fixpoint retry (opCtx : OperationContext) (fuel : nat) (calls : nat)
    (writeConflictAttempts attemptsTempUnavailable : Z)
    (effects : list Effect) : option (Run A) :=
  match fuel with
  | O => None
  | S fuel' =>
      match f calls with
      | inr a => Some (mkRun (Returned a) (S calls) effects)
      | inl e =>
          match code e with
          | ErrorCodes.WriteConflict =>
              let effects :=
                effects ++ [IncrementWriteConflicts 1;
                            LogWriteConflictAndBackoff writeConflictAttempts
                              opStr (reason e) ns] in
              if bool_decide (writeConflictAttempts < INT_MAX)%Z then
                retry opCtx fuel' (S calls) (writeConflictAttempts + 1)%Z
                  attemptsTempUnavailable (effects ++ [AbandonSnapshot])
              else Some (mkRun UndefinedBehaviour (S calls) effects)
          | ErrorCodes.TemporarilyUnavailable =>
              if bool_decide (attemptsTempUnavailable < INT_MAX)%Z then
                let attempts := (attemptsTempUnavailable + 1)%Z in
                let effects :=
                  effects ++ [HandleTemporarilyUnavailable attempts opStr ns e] in
                match handleTemporarilyUnavailableException opCtx attempts
                        opStr ns e with
                | Some e' => Some (mkRun (Thrown e') (S calls) effects)
                | None =>
                    retry opCtx fuel' (S calls) writeConflictAttempts attempts
                      effects
                end
              else Some (mkRun UndefinedBehaviour (S calls) effects)
          | ErrorCodes.TransactionTooLargeForCache =>
              let effects :=
                effects ++ [HandleTransactionTooLargeForCache
                              writeConflictAttempts opStr ns e] in
              match handleTransactionTooLargeForCacheException opCtx
                      writeConflictAttempts opStr ns e with
              | inl e' => Some (mkRun (Thrown e') (S calls) effects)
              | inr attempts =>
                  retry opCtx fuel' (S calls) attempts attemptsTempUnavailable
                    effects
              end
          | ErrorCodes.OtherError _ =>
              Some (mkRun (Thrown e) (S calls) effects)
          end
      end
  end.

(** [None]: the loop is still running after [fuel] iterations. *)
Definition writeConflictRetry (opCtx : option OperationContext) (fuel : nat)
    : option (Run A) :=
  match opCtx with
  | None => Some (mkRun InvariantFailed 0 [])
  | Some opCtx' =>
      match lockState opCtx' with
      | None => Some (mkRun InvariantFailed 0 [])
      | Some locker =>
          if negb (recoveryUnit opCtx') then Some (mkRun InvariantFailed 0 [])
          else
            let userSkipWriteConflictRetry :=
              shouldFail && isFromUserConnection opCtx' in
            if inAWriteUnitOfWork locker || userSkipWriteConflictRetry then
              match f 0 with
              | inr a => Some (mkRun (Returned a) 1 [])
              | inl e =>
                  match code e with
                  | ErrorCodes.TemporarilyUnavailable =>
                      if inMultiDocumentTransaction opCtx' then
                        match handleTemporarilyUnavailableExceptionInTransaction
                                opCtx' opStr ns e with
                        | Some e' =>
                            Some (mkRun (Thrown e') 1
                                    [HandleTemporarilyUnavailableInTransaction
                                       opStr ns e])
                        | None =>
                            Some (mkRun (Thrown e) 1
                                    [HandleTemporarilyUnavailableInTransaction
                                       opStr ns e])
                        end
                      else Some (mkRun (Thrown e) 1 [])
                  | _ => Some (mkRun (Thrown e) 1 [])
                  end
              end
            else retry opCtx' fuel 0 0 0 []
      end
  end.
(** The calls a write conflict in the call number [k] of [f] causes. *)
Definition conflictEffects (k : nat) : list Effect :=
  match f k with
  | inl e =>
      [IncrementWriteConflicts 1;
       LogWriteConflictAndBackoff (Z.of_nat k) opStr (reason e) ns;
       AbandonSnapshot]
  | inr _ => []
  end.

Definition isWriteConflict (k : nat) : Prop :=
  exists e, f k = inl e /\ code e = ErrorCodes.WriteConflict.

(** The call a temporary unavailability in the call number [k] of [f]
    causes, when every call before met one too. *)
Definition unavailableEffects (k : nat) : list Effect :=
  match f k with
  | inl e => [HandleTemporarilyUnavailable (Z.of_nat k + 1) opStr ns e]
  | inr _ => []
  end.

Definition isTemporarilyUnavailable (k : nat) : Prop :=
  exists e, f k = inl e /\ code e = ErrorCodes.TemporarilyUnavailable.

Definition retried (k : nat) : Prop :=
  exists e, f k = inl e
            /\ (code e = ErrorCodes.WriteConflict
                \/ code e = ErrorCodes.TemporarilyUnavailable
                \/ code e = ErrorCodes.TransactionTooLargeForCache).

Definition retries (opCtx : OperationContext) : bool :=
  match lockState opCtx with
  | Some locker =>
      recoveryUnit opCtx
      && negb (inAWriteUnitOfWork locker
               || shouldFail && isFromUserConnection opCtx)
  | None => false
  end.
End WriteConflictRetry.
End WriteConflictRetry.

(** ** Sample operations *)

(** An operation that meets [n] write conflicts and then returns [a]. *)
Definition conflictsThen {A} (n : nat) (a : A) (k : nat) : DBException + A :=
  if bool_decide (k < n)%nat then inl (throwWriteConflictException "update")
  else inr a.

Definition noHandler {B} : B -> option DBException := fun _ => None.

(** A handler of temporary unavailability that rethrows from the attempt
    number [n] on. *)
Definition givesUpAt (n : Z) (opCtx : WriteConflictRetry.OperationContext)
    (attempts : Z) (opStr ns : string) (e : DBException)
    : option DBException :=
  if bool_decide (n <= attempts)%Z then Some e else None.

Definition sampleContext (inWriteUnitOfWork : bool)
    : WriteConflictRetry.OperationContext :=
  WriteConflictRetry.mkOperationContext
    (Some (WriteConflictRetry.mkLocker inWriteUnitOfWork)) true true false.

(** * Properties *)

(** Short names for the three classes. *)
Module R := KmipSessionRegisterSymmetricKey.
Module G := KmipSessionGetSymmetricKey.
Module V := KmipSessionVerifyKeyIsActive.

Import KmipExchange.

(** ** Reachable states satisfy the invariant *)

Lemma received_ok_other k st r :
  st <> kResponseReceived -> received_ok (mk k st r).
Proof. intros Hst Heq. simpl in Heq. contradiction. Qed.

Lemma received_ok_expected k r :
  expected k r = true -> received_ok (mk k kResponseReceived (Some r)).
Proof. intros He _. exists r. done. Qed.

Ltac solve_received_ok :=
  first [ assumption
        | apply received_ok_other; discriminate
        | apply received_ok_expected; reflexivity ].

(** Case analysis on a response, down to its payload. *)
Ltac split_response x :=
  destruct x as [?|[]|[]|[]|].

(** Case analysis on an exchange of known kind: its state and, once the
    response was received, the response. *)
Ltac split_exchange e :=
  let k := fresh "k" in let st := fresh "st" in let r := fresh "r" in
  destruct e as [k st r];
  match goal with H : kind (mk _ _ _) = _ |- _ => simpl in H; subst k end;
  destruct st;
  try match goal with
      | H : received_ok (mk _ kResponseReceived _) |- _ =>
          let x := fresh "x" in
          let Hx := fresh in
          let Hexp := fresh in
          destruct (H eq_refl) as (x & Hx & Hexp);
          simpl in Hx; subst r;
          split_response x; try discriminate Hexp; clear Hexp H
      end.

Ltac split_loc l := destruct l as [|[|[|l]]].

Ltac run_step :=
  match goal with
  | H : _ = Some (_, _) |- _ => vm_compute in H; simplify_eq/=
  end.

Ltac close_inv :=
  split; [| reflexivity];
  constructor;
  first [ by constructor
        | by (econstructor; first [reflexivity | solve_received_ok])
        | by apply (get_finished _ true None)
        | by apply (get_finished _ false None)
        | by eapply (get_finished _ true (Some _))
        | by eapply (get_finished _ false (Some _))
        | by apply (get_retrieving _ true); [reflexivity | solve_received_ok]
        | by apply (get_retrieving _ false); [reflexivity | solve_received_ok] ].

Lemma step_register key wa s h c ev p sys' :
  RegisterInv key wa s h ->
  step ev (mkSystem (RegisterSymmetricKey s) h c) = Some (p, sys') ->
  Inv (RegisterSymmetricKey (R.new key wa))
      (session sys') (heap sys')
  /\ map kind (heap sys') = map kind h ++ kindAt (heap sys') p.
Proof.
  intros HI Hs.
  destruct HI as [|e Hk Hok|id e -> Hk Hok|id]; destruct ev as [|l|l|l r'|dt];
    try split_loc l; try split_exchange e; try destruct wa;
    try split_response r'.
  all: run_step.
  all: close_inv.
Qed.

Lemma step_get keyId vs s h c ev p sys' :
  GetInv keyId vs s h ->
  step ev (mkSystem (GetSymmetricKey s) h c) = Some (p, sys') ->
  Inv (GetSymmetricKey (G.new keyId vs))
      (session sys') (heap sys')
  /\ map kind (heap sys') = map kind h ++ kindAt (heap sys') p.
Proof.
  intros HI Hs.
  destruct HI as [|e -> Hk Hok|e Hk Hok|err ->|k]; destruct ev as [|l|l|l r'|dt];
    try split_loc l; try split_exchange e; try destruct vs;
    try split_response r'.
  all: run_step.
  all: close_inv.
Qed.

Lemma step_verify keyId s h c ev p sys' :
  VerifyInv keyId s h ->
  step ev (mkSystem (VerifyKeyIsActive s) h c) = Some (p, sys') ->
  Inv (VerifyKeyIsActive (V.new keyId))
      (session sys') (heap sys')
  /\ map kind (heap sys') = map kind h ++ kindAt (heap sys') p.
Proof.
  intros HI Hs.
  destruct HI as [|e Hk Hok|err]; destruct ev as [|l|l|l r'|dt];
    try split_loc l; try split_exchange e;
    try split_response r'.
  all: run_step.
  all: close_inv.
Qed.

Lemma step_inv s0 sys ev p sys' :
  Inv s0 (session sys) (heap sys) ->
  step ev sys = Some (p, sys') ->
  Inv s0 (session sys') (heap sys')
  /\ map kind (heap sys') = map kind (heap sys) ++ kindAt (heap sys') p.
Proof.
  destruct sys as [s h c]; simpl. intros HI Hs.
  destruct HI; eauto using step_register, step_get, step_verify.
Qed.

Lemma run_inv s0 evs : forall sys sys',
  Inv s0 (session sys) (heap sys) ->
  run evs sys = Some sys' ->
  Inv s0 (session sys') (heap sys')
  /\ map kind (heap sys') = map kind (heap sys) ++ exchanges evs sys.
Proof.
  induction evs as [|ev evs IH]; intros sys sys' HI Hrun; simpl in *.
  - simplify_eq. by rewrite app_nil_r.
  - destruct (step ev sys) as [[p sys1]|] eqn:Hs; [|done].
    destruct (step_inv _ _ _ _ _ HI Hs) as [HI1 Hk1].
    destruct (IH _ _ HI1 Hrun) as [HI' Hk'].
    split; [done|]. by rewrite Hk', Hk1, app_assoc.
Qed.

Lemma constructed_inv s0 : Constructed s0 -> Inv s0 s0 [].
Proof. destruct 1; repeat constructor. Qed.

(** Every state a constructed session can be driven to satisfies the
    invariant, and the exchanges in the store are those that
    [nextExchange()] returned, in the order of their creation. *)
Lemma reachable s0 now evs sys :
  Constructed s0 ->
  run evs (start s0 now) = Some sys ->
  Inv s0 (session sys) (heap sys)
  /\ map kind (heap sys) = exchanges evs (start s0 now).
Proof.
  intros Hc Hrun.
  apply (run_inv s0 evs (start s0 now) sys); [|done].
  by apply constructed_inv.
Qed.

(** ** Evaluating the methods *)

Ltac unfold_prims :=
  cbv [mbind M_bind mret M_ret fmap M_fmap load store state deref invariant
       decodeKeyId verifyResponse decodeResponse decodeKey interpret update
       throw make_shared encodeRequest requestSent ingestResponse advance].

Ltac mcompute :=
  unfold_prims;
  repeat first
    [ progress (cbn -[lookup insert length app])
    | match goal with H : _ !! _ = Some _ |- _ => rewrite H end
    | match goal with H : _ !! _ = None |- _ => rewrite H end
    | rewrite bool_decide_eq_true_2 by done
    | rewrite bool_decide_eq_false_2 by done ].

Section PrimFacts.
Context {T : Type}.
Implicit Types (s : T) (h : list KmipExchange.t).

Lemma state_returns p s h xs w :
  state p (s, h) = Returns xs w ->
  exists l e, p = Some l /\ h !! l = Some e /\ _state e = xs /\ w = (s, h).
Proof.
  destruct p as [l|]; [|done].
  destruct (h !! l) as [e|] eqn:Hl; mcompute; [|done].
  intros [= <- <-]. eauto 10.
Qed.

Lemma interpret_returns {A} (dec : Response -> option A) p s h a w :
  interpret dec p (s, h) = Returns a w ->
  exists l e r,
    p = Some l /\ h !! l = Some e /\ _state e = kResponseReceived
    /\ _response e = Some r /\ dec r = Some a
    /\ w = (s, <[l := mk (kind e) kInterpreted (Some r)]> h).
Proof.
  destruct p as [l|]; [|done].
  destruct (h !! l) as [[k st r]|] eqn:Hl; mcompute; [|done].
  destruct st; mcompute; try done.
  destruct r as [r|]; mcompute; [|done].
  destruct (dec r) as [a'|] eqn:Hd; mcompute; [|done].
  intros [= <- <-]. eauto 10.
Qed.

Lemma interpret_throws {A} (dec : Response -> option A) p s h ex w :
  interpret dec p (s, h) = Throws ex w ->
  exists l e,
    p = Some l /\ h !! l = Some e /\ _state e = kResponseReceived
    /\ _response e ≫= dec = None
    /\ w = (s, <[l := mk (kind e) kFailed (_response e)]> h).
Proof.
  destruct p as [l|]; [|done].
  destruct (h !! l) as [[k st r]|] eqn:Hl; mcompute; [|done].
  destruct st; mcompute; try done.
  destruct (option_bind _ _ dec r) as [a'|] eqn:Hd; mcompute; [done|].
  intros [= <- <-]. eauto 10.
Qed.

End PrimFacts.

(** ** Single steps of the sessions *)

Lemma get_verifying_step (s : G.t) h err w1 :
  G._state s = G.kVerifying ->
  state (G._verify s) (s, h) = Returns kResponseReceived (s, h) ->
  decodeResponse (G._verify s) (s, h) = Returns err w1 ->
  G.nextExchange (s, h) =
    match err with
    | Some e =>
        Returns None
          (G.mk (G._keyId s) (G._verifyState s) G.kFinished None
             (G._retrieve s) (HoldsError e), w1.2)
    | None =>
        Returns (Some (length h))
          (G.mk (G._keyId s) (G._verifyState s) G.kRetrieving None
             (Some (length h)) (G._key s),
           w1.2 ++ [create (KmipExchangeGetSymmetricKey (G._keyId s))])
    end.
Proof.
  intros Hst _ Hdec.
  apply interpret_returns in Hdec as (l & [k st r] & x & Hp & Hl & Hs & Hr & Hx & ->).
  destruct s as [keyId vs gst ver ret key]; simpl in *; subst.
  unfold G.nextExchange, G.transitionToRetrievingState.
  mcompute. destruct x; simplify_eq. destruct err; mcompute.
  - done.
  - by rewrite length_insert.
Qed.

Lemma get_retrieving_step (s : G.t) h k w1 :
  G._state s = G.kRetrieving ->
  decodeKey (G._retrieve s) (s, h) = Returns k w1 ->
  G.nextExchange (s, h) =
    Returns None
      (G.mk (G._keyId s) (G._verifyState s) G.kFinished (G._verify s) None
         (keyOrError k), w1.2).
Proof.
  intros Hst Hdec.
  apply interpret_returns in Hdec as (l & [kd st r] & x & Hp & Hl & Hs & Hr & Hx & ->).
  destruct s as [keyId vs gst ver ret key]; simpl in *; subst.
  unfold G.nextExchange. mcompute. destruct x; simplify_eq.
  by destruct k.
Qed.

Lemma register_activating_throws (s : R.t) h ex w1 :
  R._state s = R.kActivating ->
  verifyResponse (R._activate s) (s, h) = Throws ex w1 ->
  R.nextExchange (s, h) = Throws ex (s, w1.2)
  /\ exists l e, R._activate s = Some l /\ w1.2 !! l = Some e
                 /\ _state e = kFailed.
Proof.
  intros Hst Hver.
  apply interpret_throws in Hver as (l & [kd st r] & Hp & Hl & Hs & Hr & ->).
  destruct s as [key wa rst reg act id], ex; simpl in *; subst. split.
  - unfold R.nextExchange. mcompute. cbv [option_bind] in *.
    destruct r as [[| [] | | |]|]; simplify_eq; mcompute; reflexivity.
  - exists l, (mk kd kFailed r). split; [done|]. split; [|reflexivity].
    apply list_lookup_insert_eq. by eapply lookup_lt_Some.
Qed.

Lemma accessor_before_finished s h :
  finished s = false -> accessor (s, h) = InvariantFailure.
Proof.
  destruct s as [[]|[]|[]]; simpl; intros Hf; case_bool_decide; try done;
    unfold accessor, upcast, R.keyId, G.key, V.error; mcompute; done.
Qed.

(** ** The driver's events *)

Section DriverFacts.
Context {T : Type}.
Implicit Types (s : T) (h : list KmipExchange.t).

Lemma advance_result from to r p s h :
  advance from to r p (s, h) =
    match p ≫= (h !!.) with
    | Some e =>
        if bool_decide (_state e = from)
        then Returns tt (s, <[default 0 p := mk (kind e) to (r e)]> h)
        else InvariantFailure
    | None => Undefined
    end.
Proof.
  destruct p as [l|]; [|done]. simpl.
  destruct (h !! l) as [e|] eqn:Hl; mcompute; [|done].
  by case_bool_decide.
Qed.

Lemma ingestResponse_result l r s h e :
  h !! l = Some e ->
  ingestResponse (Some l) r (s, h) =
    advance kAwaitingResponse
      (if expected (kind e) r then kResponseReceived else kFailed)
      (fun _ => Some r) (Some l) (s, h).
Proof.
  intros Hl. unfold ingestResponse at 1. cbv [mbind M_bind deref]. simpl.
  rewrite Hl. by destruct (expected (kind e) r).
Qed.

End DriverFacts.

Lemma step_driver ev s h c p sys' :
  ev <> NextExchange ->
  step ev (mkSystem s h c) = Some (p, sys') ->
  p = None /\ session sys' = s
  /\ (heap sys' = h
      \/ exists l e e', h !! l = Some e /\ terminal e = false
                        /\ kind e' = kind e /\ heap sys' = <[l := e']> h).
Proof.
  intros Hev Hs.
  assert (Hadv : forall from to r l,
    from <> kInterpreted -> from <> kFailed ->
    outcome c (fun _ => None) (advance from to r (Some l) (s, h)) = Some (p, sys') ->
    p = None /\ session sys' = s
    /\ (heap sys' = h
        \/ exists l e e', h !! l = Some e /\ terminal e = false
                          /\ kind e' = kind e /\ heap sys' = <[l := e']> h)).
  { intros from to r l Hf1 Hf2. rewrite advance_result. simpl.
    destruct (h !! l) as [e|] eqn:Hl; [|done]. case_bool_decide as Hst; [|done].
    intros [= <- <-]. simpl. repeat split. right.
    exists l, e, (mk (kind e) to (r e)). repeat split; [done|].
    unfold terminal. rewrite Hst. by destruct from. }
  destruct ev as [|l|l|l r|dt]; [done|..]; simpl in Hs.
  - unfold encodeRequest in Hs. by apply Hadv in Hs.
  - unfold requestSent in Hs. by apply Hadv in Hs.
  - destruct (h !! l) as [e|] eqn:Hl.
    2:{ revert Hs. unfold ingestResponse. mcompute. done. }
    rewrite (ingestResponse_result _ _ _ _ _ Hl) in Hs.
    destruct (expected (kind e) r); by apply Hadv in Hs.
  - simplify_eq/=. auto.
Qed.

Lemma event_cases ev : ev = NextExchange \/ ev <> NextExchange.
Proof. destruct ev; auto. Qed.

Lemma kinds_insert (h : list KmipExchange.t) l e e' :
  h !! l = Some e -> kind e' = kind e -> map kind (<[l := e']> h) = map kind h.
Proof.
  intros Hl Hk. rewrite list_fmap_insert, Hk.
  apply list_insert_id. by rewrite list_lookup_fmap, Hl.
Qed.


Lemma finished_next s h :
  finished s = true -> nextExchange (s, h) = Returns None (s, h).
Proof.
  destruct s as [[]|[]|[]]; simpl; intros Hf; case_bool_decide; try done;
    by subst.
Qed.

Lemma finished_step s h c ev p sys' :
  finished s = true ->
  step ev (mkSystem s h c) = Some (p, sys') ->
  p = None /\ session sys' = s /\ map kind (heap sys') = map kind h.
Proof.
  intros Hf Hs. destruct (event_cases ev) as [->|Hev].
  - simpl in Hs. rewrite finished_next in Hs by done. by simplify_eq/=.
  - apply step_driver in Hs; [|done].
    destruct Hs as (-> & -> & [->|(l & e & e' & Hl & _ & Hk & ->)]);
      eauto using kinds_insert.
Qed.

Lemma finished_run s evs : forall h c sys',
  finished s = true ->
  run evs (mkSystem s h c) = Some sys' ->
  session sys' = s /\ map kind (heap sys') = map kind h
  /\ exchanges evs (mkSystem s h c) = [].
Proof.
  induction evs as [|ev evs IH]; intros h c sys' Hf Hrun; simpl in *.
  - by simplify_eq.
  - destruct (step ev (mkSystem s h c)) as [[p [s1 h1 c1]]|] eqn:Hs; [|done].
    apply finished_step in Hs as (-> & Hs1 & Hk1); [|done]. simpl in *. subst s1.
    destruct (IH _ _ _ Hf Hrun) as (? & ? & ->). repeat split; [done|congruence].
Qed.

Lemma activating_failed_run s l e evs : forall h c sys',
  R._state s = R.kActivating ->
  R._activate s = Some l ->
  h !! l = Some e ->
  _state e = kFailed ->
  run evs (mkSystem (RegisterSymmetricKey s) h c) = Some sys' ->
  session sys' = RegisterSymmetricKey s /\ heap sys' !! l = Some e.
Proof.
  induction evs as [|ev evs IH]; intros h c sys' Hst Hact Hl He Hrun; simpl in *.
  - by simplify_eq.
  - destruct (step ev _) as [[p [s1 h1 c1]]|] eqn:Hs; [|done].
    destruct (event_cases ev) as [->|Hev].
    + exfalso. revert Hs. destruct s as [key wa rst reg act id], e as [k st r].
      simpl in *. subst. unfold nextExchange, upcast, R.nextExchange.
      mcompute. discriminate.
    + apply step_driver in Hs; [|done].
      destruct Hs as (-> & Hs1 & [Hh|(l' & e1 & e' & Hl' & Ht & Hk & Hh)]);
        simpl in *; subst s1 h1.
      * eauto.
      * apply (IH _ _ _ Hst Hact) in Hrun; try done.
        rewrite list_lookup_insert_ne; [done|].
        intros ->. simplify_eq. unfold terminal in Ht. by rewrite He in Ht.
Qed.

(** ** Time *)

Lemma step_clock ev s h c1 c2 :
  match step ev (mkSystem s h c1), step ev (mkSystem s h c2) with
  | Some (p1, sys1), Some (p2, sys2) =>
      p1 = p2 /\ session sys1 = session sys2 /\ heap sys1 = heap sys2
  | None, None => True
  | _, _ => False
  end.
Proof.
  destruct ev; simpl; unfold outcome;
    try match goal with |- context [match ?r with Returns _ _ => _ | _ => _ end] =>
          destruct r end; done.
Qed.

Lemma exchanges_clock evs : forall s h c1 c2,
  exchanges evs (mkSystem s h c1) = exchanges evs (mkSystem s h c2).
Proof.
  induction evs as [|ev evs IH]; intros s h c1 c2; [done|]. simpl.
  pose proof (step_clock ev s h c1 c2) as Hs.
  destruct (step ev (mkSystem s h c1)) as [[p1 [s1 h1 d1]]|],
           (step ev (mkSystem s h c2)) as [[p2 [s2 h2 d2]]|]; try done.
  simpl in Hs. destruct Hs as (-> & -> & ->). simpl. f_equal. apply IH.
Qed.

Lemma exchanges_untimed evs : forall sys,
  exchanges (untimed evs) sys = exchanges evs sys.
Proof.
  induction evs as [|ev evs IH]; intros [s h c]; [done|].
  destruct ev; simpl; try (by destruct outcome as [[? ?]|]; rewrite ?IH).
  rewrite IH. apply exchanges_clock.
Qed.

Lemma drive_expected s0 now responses :
  Constructed s0 -> (drive responses (start s0 now)).1 = expectedKinds s0 responses.
Proof.
  destruct 1 as [key []|keyId []|keyId];
    destruct responses as [|r1 [|r2 [|r3 responses]]];
    try split_response r1; try split_response r2; reflexivity.
Qed.

Ltac invert_inv HI :=
  let H := fresh in
  destruct HI as [? ? ? ? H|? ? ? ? H|? ? ? H]; destruct H.

(** * The claims *)

(** C1.  A [KmipSessionGetSymmetricKey] in state [kVerifying] whose verify
    exchange has received its response.  When [decodeResponse] yields an
    error, [nextExchange()] stores it as the result, moves straight to
    [kFinished] and returns null, and from then on no exchange is created
    (in particular no retrieve exchange).  When it yields no error, a
    retrieve exchange bound to the key id of the session is created and
    returned and the state becomes [kRetrieving].  Driven by the loop, a
    session that verifies first asks for the verify exchange only when
    the key is reported missing, and for verify then retrieve when it is
    reported active. *)
Theorem get_verifying_nextExchange :
  (forall (s : G.t) h err w1,
     G._state s = G.kVerifying ->
     state (G._verify s) (s, h) = Returns kResponseReceived (s, h) ->
     decodeResponse (G._verify s) (s, h) = Returns err w1 ->
     match err with
     | Some e =>
         let s' := G.mk (G._keyId s) (G._verifyState s) G.kFinished None
                     (G._retrieve s) (HoldsError e) in
         G.nextExchange (s, h) = Returns None (s', w1.2)
         /\ G.key (s', w1.2) = Returns (HoldsError e) (s', w1.2)
         /\ forall evs c sys',
              run evs (mkSystem (GetSymmetricKey s') w1.2 c) = Some sys' ->
              session sys' = GetSymmetricKey s'
              /\ exchanges evs (mkSystem (GetSymmetricKey s') w1.2 c) = []
              /\ map kind (heap sys') = map kind h
     | None =>
         let h' := w1.2 ++ [create (KmipExchangeGetSymmetricKey
                                      (G._keyId s))] in
         G.nextExchange (s, h) =
           Returns (Some (length h))
             (G.mk
                (G._keyId s)
                (G._verifyState s)
                G.kRetrieving None
                (Some (length h)) (G._key s),
              h')
         /\ h' !! length h
            = Some (create (KmipExchangeGetSymmetricKey
                              (G._keyId s)))
     end)
  /\ (forall keyId now e responses,
        drive (VerifyResponse (Some e) :: responses)
          (start (GetSymmetricKey (G.new keyId true)) now)
        = ([KmipExchangeVerifyKeyIsActive keyId],
           Completed
             (mkSystem
                (GetSymmetricKey
                   (G.mk keyId true G.kFinished None None (HoldsError e)))
                [mk (KmipExchangeVerifyKeyIsActive keyId) kInterpreted
                   (Some (VerifyResponse (Some e)))]
                now)))
  /\ (forall keyId now k responses,
        drive (VerifyResponse None :: GetResponse k :: responses)
          (start (GetSymmetricKey (G.new keyId true)) now)
        = ([KmipExchangeVerifyKeyIsActive keyId;
            KmipExchangeGetSymmetricKey keyId],
           Completed
             (mkSystem
                (GetSymmetricKey
                   (G.mk keyId true G.kFinished None None
                      match k with
                      | Some key => HoldsKey key
                      | None => HoldsError kKeyDoesNotExist
                      end))
                [mk (KmipExchangeVerifyKeyIsActive keyId) kInterpreted
                   (Some (VerifyResponse None));
                 mk (KmipExchangeGetSymmetricKey keyId) kInterpreted
                   (Some (GetResponse k))]
                now))).
Proof.
  split; [|split].
  - intros s h err w1 Hst Hrr Hdec.
    pose proof (get_verifying_step s h err w1 Hst Hrr Hdec) as Hnext.
    destruct err as [e|].
    2:{ split; [done|].
        apply interpret_returns in Hdec as (l & x & r & _ & _ & _ & _ & _ & ->).
        simpl. rewrite lookup_app_r by (by rewrite length_insert).
        by rewrite length_insert, Nat.sub_diag. }
    split; [done|]. split; [done|].
    intros evs c sys' Hrun.
    apply finished_run in Hrun as (Hs & Hk & Hx); [|done].
    repeat split; try done. rewrite Hk.
    apply interpret_returns in Hdec as (l & x & r & _ & Hl & _ & _ & _ & ->).
    by apply kinds_insert with x.
  - intros keyId now e [|r responses]; reflexivity.
  - intros keyId now [k|] [|r responses]; reflexivity.
Qed.

Lemma get_verifying_nextExchange_witness :
  let s := G.mk "key-7" true G.kVerifying (Some 0) None (HoldsKey defaultKey) in
  let s' := G.mk "key-7" true G.kFinished None None (HoldsError kKeyDoesNotExist) in
  let received st :=
    [mk (KmipExchangeVerifyKeyIsActive "key-7") st
       (Some (VerifyResponse (Some kKeyDoesNotExist)))] in
  G._state s = G.kVerifying
  /\ state (G._verify s) (s, received kResponseReceived)
     = Returns kResponseReceived (s, received kResponseReceived)
  /\ decodeResponse (G._verify s) (s, received kResponseReceived)
     = Returns (Some kKeyDoesNotExist) (s, received kInterpreted)
  /\ G.nextExchange (s, received kResponseReceived)
     = Returns None (s', received kInterpreted).
Proof.
  intros s s' received.
  split; [reflexivity|]. split; [reflexivity|]. split; [reflexivity|].
  apply (proj1 get_verifying_nextExchange s (received kResponseReceived)
           (Some kKeyDoesNotExist) (s, received kInterpreted));
    reflexivity.
Defined.

(** C2.  A [KmipSessionRegisterSymmetricKey] constructed with activation
    asks for a register exchange bound to the key and then for an activate
    exchange bound to the key id decoded from the register response, and
    for nothing else.  When [verifyResponse] on the activate exchange
    throws, [nextExchange()] throws the same decode failure, the state
    stays [kActivating], and [keyId()] fails its invariant then and after
    any further calls and deliveries. *)
Theorem register_with_activation key now evs sys s :
  run evs (start (RegisterSymmetricKey (R.new key true)) now) = Some sys ->
  session sys = RegisterSymmetricKey s ->
  match R._state s with
  | R.kNotStarted =>
      exchanges evs (start (RegisterSymmetricKey (R.new key true)) now) = []
  | R.kRegistering =>
      exchanges evs (start (RegisterSymmetricKey (R.new key true)) now)
        = [KmipExchangeRegisterSymmetricKey key]
  | R.kActivating | R.kFinished =>
      exists id,
        exchanges evs (start (RegisterSymmetricKey (R.new key true)) now)
          = [KmipExchangeRegisterSymmetricKey key; KmipExchangeActivate id]
        /\ heap sys !! 0 = Some (mk (KmipExchangeRegisterSymmetricKey key)
                                   kInterpreted (Some (RegisterResponse id)))
  end
  /\ (forall ex w1,
        R._state s = R.kActivating ->
        verifyResponse (R._activate s) (s, heap sys) = Throws ex w1 ->
        R.nextExchange (s, heap sys) = Throws ex (s, w1.2)
        /\ R.keyId (s, w1.2) = InvariantFailure
        /\ forall evs' c sys',
             run evs' (mkSystem (RegisterSymmetricKey s) w1.2 c) = Some sys' ->
             finished (session sys') = false
             /\ accessor (session sys', heap sys') = InvariantFailure)
  /\ (forall id responses,
        drive (RegisterResponse id :: ActivateResponse true :: responses)
          (start (RegisterSymmetricKey (R.new key true)) now)
        = ([KmipExchangeRegisterSymmetricKey key; KmipExchangeActivate id],
           Completed
             (mkSystem
                (RegisterSymmetricKey (R.mk key true R.kFinished None None id))
                [mk (KmipExchangeRegisterSymmetricKey key) kInterpreted
                   (Some (RegisterResponse id));
                 mk (KmipExchangeActivate id) kInterpreted
                   (Some (ActivateResponse true))]
                now))
        /\ drive (RegisterResponse id :: ActivateResponse false :: responses)
             (start (RegisterSymmetricKey (R.new key true)) now)
           = ([KmipExchangeRegisterSymmetricKey key; KmipExchangeActivate id],
              Failed DecodeFailure
                (mkSystem
                   (RegisterSymmetricKey
                      (R.mk key true R.kActivating None (Some 1) id))
                   [mk (KmipExchangeRegisterSymmetricKey key) kInterpreted
                      (Some (RegisterResponse id));
                    mk (KmipExchangeActivate id) kFailed
                      (Some (ActivateResponse false))]
                   now))).
Proof.
  intros Hrun Hsess. split; [|split].
  - destruct (reachable _ _ _ _ (construct_register key true) Hrun) as [HI Hk].
    rewrite <- Hk. destruct sys as [s1 h c]; simpl in *. subst s1.
    inversion HI as [? ? ? ? HR| |]; subst.
    destruct HR as [|e Hke Hok|id e _ Hke Hok|id]; simpl; rewrite ?Hke;
      [done|done|by exists id..].
  - intros ex w1 Hst Hver.
    destruct (register_activating_throws s (heap sys) ex w1 Hst Hver)
      as (Hnext & l & e & Hact & Hl & He).
    split; [done|]. split.
    { destruct s; simpl in *; subst. reflexivity. }
    intros evs' c sys' Hrun'.
    destruct (activating_failed_run s l e evs' _ _ _ Hst Hact Hl He Hrun')
      as [Hs' _].
    assert (Hnf : finished (session sys') = false).
    { rewrite Hs'. simpl. rewrite Hst. reflexivity. }
    split; [done|]. by apply accessor_before_finished.
  - intros id responses. split; destruct responses; reflexivity.
Qed.

Lemma register_with_activation_witness :
  let evs := exchangeWith 0 (RegisterResponse "id-1")
             ++ exchangeWith 1 (ActivateResponse false) in
  let s := R.mk sampleKey true R.kActivating None (Some 1) "id-1" in
  let registered :=
    mk (KmipExchangeRegisterSymmetricKey sampleKey) kInterpreted
      (Some (RegisterResponse "id-1")) in
  let activation st :=
    mk (KmipExchangeActivate "id-1") st (Some (ActivateResponse false)) in
  let sys := mkSystem (RegisterSymmetricKey s)
               [registered; activation kResponseReceived] 0 in
  run evs (start (sampleRegister true) 0) = Some sys
  /\ session sys = RegisterSymmetricKey s
  /\ exchanges evs (start (sampleRegister true) 0)
     = [KmipExchangeRegisterSymmetricKey sampleKey; KmipExchangeActivate "id-1"]
  /\ R.nextExchange (s, heap sys)
     = Throws DecodeFailure (s, [registered; activation kFailed])
  /\ R.keyId (s, [registered; activation kFailed]) = InvariantFailure.
Proof.
  intros evs s registered activation sys.
  split; [reflexivity|]. split; [reflexivity|].
  destruct (register_with_activation sampleKey 0 evs sys s eq_refl eq_refl)
    as (Hkinds & Hfail & _).
  split.
  - destruct Hkinds as (id & Hx & Hid). injection Hid as <-. exact Hx.
  - destruct (Hfail DecodeFailure (s, [registered; activation kFailed])
                eq_refl eq_refl) as (Hnext & Hkey & _).
    split; [exact Hnext | exact Hkey].
Defined.

(** C3.  A [KmipSessionGetSymmetricKey] in state [kRetrieving] whose
    retrieve exchange has received its response: [nextExchange()] stores
    the decoded key when [decodeKey] yields one and
    [KeyEntryError::kKeyDoesNotExist] when it yields none, moves to
    [kFinished] and returns null.  A session constructed without
    verification has asked for exactly one exchange, the retrieve
    exchange, when it is finished, whatever the answer was. *)
Theorem get_retrieving_nextExchange :
  (forall (s : G.t) h k w1,
     G._state s = G.kRetrieving ->
     state (G._retrieve s) (s, h) = Returns kResponseReceived (s, h) ->
     decodeKey (G._retrieve s) (s, h) = Returns k w1 ->
     let result := match k with
                   | Some key => HoldsKey key
                   | None => HoldsError kKeyDoesNotExist
                   end in
     let s' := G.mk (G._keyId s) (G._verifyState s) G.kFinished (G._verify s)
                 None result in
     G.nextExchange (s, h) = Returns None (s', w1.2)
     /\ G.key (s', w1.2) = Returns result (s', w1.2))
  /\ (forall keyId now evs sys,
        run evs (start (GetSymmetricKey (G.new keyId false)) now) = Some sys ->
        finished (session sys) = true ->
        exchanges evs (start (GetSymmetricKey (G.new keyId false)) now)
          = [KmipExchangeGetSymmetricKey keyId])
  /\ (forall keyId now k responses,
        drive (GetResponse k :: responses)
          (start (GetSymmetricKey (G.new keyId false)) now)
        = ([KmipExchangeGetSymmetricKey keyId],
           Completed
             (mkSystem
                (GetSymmetricKey
                   (G.mk keyId false G.kFinished None None
                      match k with
                      | Some key => HoldsKey key
                      | None => HoldsError kKeyDoesNotExist
                      end))
                [mk (KmipExchangeGetSymmetricKey keyId) kInterpreted
                   (Some (GetResponse k))]
                now))).
Proof.
  split; [|split].
  - intros s h k w1 Hst _ Hdec. simpl.
    rewrite (get_retrieving_step s h k w1 Hst Hdec). by destruct k.
  - intros keyId now evs sys Hrun Hf.
    destruct (reachable _ _ _ _ (construct_get keyId false) Hrun) as [HI Hk].
    rewrite <- Hk. destruct sys as [s h c]; simpl in *.
    inversion HI as [|? ? ? ? HG|]; subst. by destruct HG.
  - intros keyId now [k|] [|r responses]; reflexivity.
Qed.

Lemma get_retrieving_nextExchange_witness :
  let s := G.mk "key-7" false G.kRetrieving None (Some 0) (HoldsKey defaultKey) in
  let s' := G.mk "key-7" false G.kFinished None None (HoldsError kKeyDoesNotExist) in
  let received st :=
    [mk (KmipExchangeGetSymmetricKey "key-7") st (Some (GetResponse None))] in
  let evs := exchangeWith 0 (GetResponse (Some sampleKey)) ++ [NextExchange] in
  (G._state s = G.kRetrieving
   /\ state (G._retrieve s) (s, received kResponseReceived)
      = Returns kResponseReceived (s, received kResponseReceived)
   /\ decodeKey (G._retrieve s) (s, received kResponseReceived)
      = Returns None (s, received kInterpreted)
   /\ G.nextExchange (s, received kResponseReceived)
      = Returns None (s', received kInterpreted))
  /\ (run evs (start (sampleGet false) 0)
      = Some (mkSystem
                (GetSymmetricKey
                   (G.mk "key-7" false G.kFinished None None (HoldsKey sampleKey)))
                [mk (KmipExchangeGetSymmetricKey "key-7") kInterpreted
                   (Some (GetResponse (Some sampleKey)))] 0)
      /\ exchanges evs (start (sampleGet false) 0)
         = [KmipExchangeGetSymmetricKey "key-7"]).
Proof.
  intros s s' received evs.
  destruct get_retrieving_nextExchange as (Hstep & Hone & _).
  split.
  - split; [reflexivity|]. split; [reflexivity|]. split; [reflexivity|].
    apply (Hstep s (received kResponseReceived) None (s, received kInterpreted));
      reflexivity.
  - split; [reflexivity|].
    apply (Hone "key-7" 0 evs
             (mkSystem
                (GetSymmetricKey
                   (G.mk "key-7" false G.kFinished None None (HoldsKey sampleKey)))
                [mk (KmipExchangeGetSymmetricKey "key-7") kInterpreted
                   (Some (GetResponse (Some sampleKey)))] 0));
      reflexivity.
Defined.

(** C4.  A [KmipSessionRegisterSymmetricKey] constructed without
    activation has asked for exactly one exchange, the register exchange,
    when it is finished, and [keyId()] then returns the key id decoded
    from the response of that exchange.  The driver loop finishes such a
    session on any register response. *)
Theorem register_without_activation key now :
  (forall evs sys,
     run evs (start (RegisterSymmetricKey (R.new key false)) now) = Some sys ->
     finished (session sys) = true ->
     exists id,
       exchanges evs (start (RegisterSymmetricKey (R.new key false)) now)
         = [KmipExchangeRegisterSymmetricKey key]
       /\ heap sys = [mk (KmipExchangeRegisterSymmetricKey key) kInterpreted
                        (Some (RegisterResponse id))]
       /\ accessor (session sys, heap sys)
          = Returns (KeyId id) (session sys, heap sys))
  /\ (forall id responses,
        drive (RegisterResponse id :: responses)
          (start (RegisterSymmetricKey (R.new key false)) now)
        = ([KmipExchangeRegisterSymmetricKey key],
           Completed
             (mkSystem
                (RegisterSymmetricKey (R.mk key false R.kFinished None None id))
                [mk (KmipExchangeRegisterSymmetricKey key) kInterpreted
                   (Some (RegisterResponse id))]
                now))).
Proof.
  split.
  - intros evs sys Hrun Hf.
    destruct (reachable _ _ _ _ (construct_register key false) Hrun) as [HI Hk].
    rewrite <- Hk. destruct sys as [s h c]; simpl in *.
    inversion HI as [? ? ? ? HR| |]; subst.
    destruct HR as [| | |id]; try discriminate Hf.
    by exists id.
  - intros id [|r responses]; reflexivity.
Qed.

Lemma register_without_activation_witness :
  let evs := exchangeWith 0 (RegisterResponse "id-1") ++ [NextExchange] in
  let sys :=
    mkSystem
      (RegisterSymmetricKey (R.mk sampleKey false R.kFinished None None "id-1"))
      [mk (KmipExchangeRegisterSymmetricKey sampleKey) kInterpreted
         (Some (RegisterResponse "id-1"))] 0 in
  run evs (start (sampleRegister false) 0) = Some sys
  /\ finished (session sys) = true
  /\ exchanges evs (start (sampleRegister false) 0)
     = [KmipExchangeRegisterSymmetricKey sampleKey]
  /\ accessor (session sys, heap sys)
     = Returns (KeyId "id-1") (session sys, heap sys).
Proof.
  intros evs sys.
  split; [reflexivity|]. split; [reflexivity|].
  destruct (proj1 (register_without_activation sampleKey 0) evs sys
              eq_refl eq_refl) as (id & Hx & Hh & Hacc).
  injection Hh as <-. split; [exact Hx | exact Hacc].
Defined.

(** C5.  A [KmipSessionVerifyKeyIsActive] has asked for exactly one
    exchange, a verify exchange bound to the key id of the constructor,
    when it is finished, and [error()] then returns the optional error
    decoded from the response of that exchange: none for an active key,
    the error otherwise.  The driver loop finishes such a session on any
    verify response. *)
Theorem verify_key_is_active keyId now :
  (forall evs sys,
     run evs (start (VerifyKeyIsActive (V.new keyId)) now) = Some sys ->
     finished (session sys) = true ->
     exists err,
       exchanges evs (start (VerifyKeyIsActive (V.new keyId)) now)
         = [KmipExchangeVerifyKeyIsActive keyId]
       /\ heap sys = [mk (KmipExchangeVerifyKeyIsActive keyId) kInterpreted
                        (Some (VerifyResponse err))]
       /\ accessor (session sys, heap sys)
          = Returns (ErrorResult err) (session sys, heap sys))
  /\ (forall err responses,
        drive (VerifyResponse err :: responses)
          (start (VerifyKeyIsActive (V.new keyId)) now)
        = ([KmipExchangeVerifyKeyIsActive keyId],
           Completed
             (mkSystem
                (VerifyKeyIsActive (V.mk keyId V.kFinished None err))
                [mk (KmipExchangeVerifyKeyIsActive keyId) kInterpreted
                   (Some (VerifyResponse err))]
                now))).
Proof.
  split.
  - intros evs sys Hrun Hf.
    destruct (reachable _ _ _ _ (construct_verify keyId) Hrun) as [HI Hk].
    rewrite <- Hk. destruct sys as [s h c]; simpl in *.
    inversion HI as [| |? ? ? HV]; subst.
    destruct HV as [| |err]; try discriminate Hf.
    by exists err.
  - intros err [|r responses]; reflexivity.
Qed.

Lemma verify_key_is_active_witness :
  let evs := exchangeWith 0 (VerifyResponse (Some kKeyIsNotActive))
             ++ [NextExchange] in
  let sys :=
    mkSystem
      (VerifyKeyIsActive (V.mk "key-7" V.kFinished None (Some kKeyIsNotActive)))
      [mk (KmipExchangeVerifyKeyIsActive "key-7") kInterpreted
         (Some (VerifyResponse (Some kKeyIsNotActive)))] 0 in
  run evs (start sampleVerify 0) = Some sys
  /\ finished (session sys) = true
  /\ exchanges evs (start sampleVerify 0) = [KmipExchangeVerifyKeyIsActive "key-7"]
  /\ accessor (session sys, heap sys)
     = Returns (ErrorResult (Some kKeyIsNotActive)) (session sys, heap sys).
Proof.
  intros evs sys.
  split; [reflexivity|]. split; [reflexivity|].
  destruct (proj1 (verify_key_is_active "key-7" 0) evs sys eq_refl eq_refl)
    as (err & Hx & Hh & Hacc).
  injection Hh as <-. split; [exact Hx | exact Hacc].
Defined.

(** C6.  In every state a constructed session of any class can be driven
    to: while the session is not finished its accessor ([keyId()], [key()]
    or [error()]) fails its invariant instead of returning; and once the
    session has started, the exchange it returned last is the last one
    created, and [nextExchange()] fails its invariant whenever the state of
    that exchange is not [kResponseReceived]. *)
Theorem out_of_sequence_fails_fast s0 now evs sys :
  Constructed s0 ->
  run evs (start s0 now) = Some sys ->
  finished (session sys) = false ->
  accessor (session sys, heap sys) = InvariantFailure
  /\ (notStarted (session sys) = false ->
      exists e, last (heap sys) = Some e
                /\ (_state e <> kResponseReceived ->
                    nextExchange (session sys, heap sys) = InvariantFailure)).
Proof.
  intros Hc Hrun Hf. destruct (reachable _ _ _ _ Hc Hrun) as [HI _].
  destruct sys as [s h c]; simpl in *.
  invert_inv HI; try discriminate Hf; (split; [reflexivity|]);
    intros Hn; try discriminate Hn;
    try match goal with b : bool |- _ => destruct b end;
    eexists; (split; [reflexivity|]); intros Hne;
    match goal with e : KmipExchange.t |- _ => destruct e as [k [] r] end;
    done.
Qed.

Lemma out_of_sequence_fails_fast_witness :
  let evs := [NextExchange; EncodeRequest 0] in
  let sys :=
    mkSystem
      (GetSymmetricKey
         (G.mk "key-7" true G.kVerifying (Some 0) None (HoldsKey defaultKey)))
      [mk (KmipExchangeVerifyKeyIsActive "key-7") kRequestEncoded None] 0 in
  Constructed (sampleGet true)
  /\ run evs (start (sampleGet true) 0) = Some sys
  /\ finished (session sys) = false
  /\ accessor (session sys, heap sys) = InvariantFailure
  /\ nextExchange (session sys, heap sys) = InvariantFailure.
Proof.
  intros evs sys.
  split; [apply construct_get|]. split; [reflexivity|]. split; [reflexivity|].
  destruct (out_of_sequence_fails_fast (sampleGet true) 0 evs sys
              (construct_get "key-7" true) eq_refl eq_refl) as (Hacc & Hnext).
  split; [exact Hacc|].
  destruct (Hnext eq_refl) as (e & Hlast & Hfail).
  injection Hlast as <-. apply Hfail. discriminate.
Defined.

(** C7.  For a session of any class in its finished state, whatever the
    exchanges are: [nextExchange()] returns null and changes nothing, and
    so does any number of successive calls, none of which produces an
    exchange. *)
Theorem nextExchange_finished_idempotent s h c n :
  finished s = true ->
  nextExchange (s, h) = Returns None (s, h)
  /\ run (replicate n NextExchange) (mkSystem s h c) = Some (mkSystem s h c)
  /\ exchanges (replicate n NextExchange) (mkSystem s h c) = [].
Proof.
  intros Hf. split; [by apply finished_next|].
  induction n as [|n [IH1 IH2]]; [done|]. simpl.
  rewrite finished_next by done. simpl. by rewrite IH1, IH2.
Qed.

Lemma nextExchange_finished_idempotent_witness :
  let s := VerifyKeyIsActive (V.mk "key-7" V.kFinished None None) in
  let h := [mk (KmipExchangeVerifyKeyIsActive "key-7") kInterpreted
              (Some (VerifyResponse None))] in
  finished s = true
  /\ nextExchange (s, h) = Returns None (s, h)
  /\ run (replicate 5 NextExchange) (mkSystem s h 3) = Some (mkSystem s h 3)
  /\ exchanges (replicate 5 NextExchange) (mkSystem s h 3) = [].
Proof.
  intros s h. split; [reflexivity|].
  apply (nextExchange_finished_idempotent s h 3 5). reflexivity.
Defined.

(** C8.  In every state a constructed session of any class can be driven
    to by calls of [nextExchange()] and deliveries, at most one of the
    exchanges the session points to is neither interpreted nor failed; and
    a call of [nextExchange()] that creates an exchange finds either no
    exchange created before or the last created one in state
    [kResponseReceived]. *)
Theorem one_exchange_at_a_time s0 now evs sys :
  Constructed s0 ->
  run evs (start s0 now) = Some sys ->
  length (List.filter (nonTerminalAt (heap sys)) (held (session sys))) <= 1
  /\ forall p sys',
       step NextExchange sys = Some (p, sys') ->
       length (heap sys) < length (heap sys') ->
       heap sys = []
       \/ exists e, last (heap sys) = Some e /\ _state e = kResponseReceived.
Proof.
  intros Hc Hrun. destruct (reachable _ _ _ _ Hc Hrun) as [HI _].
  destruct sys as [s h c]; simpl in *. split.
  - invert_inv HI; simpl; try lia.
    all: match goal with |- context [nonTerminalAt ?h ?l] =>
           destruct (nonTerminalAt h l) end; simpl; lia.
  - intros p sys' Hs Hlen.
    invert_inv HI; try (by left);
      try match goal with e : KmipExchange.t |- _ => split_exchange e end;
      try match goal with b : bool |- _ => destruct b end;
      try (run_step; simpl in Hlen; try lia; right; eexists; split; reflexivity).
Qed.

Lemma one_exchange_at_a_time_witness :
  let evs := exchangeWith 0 (RegisterResponse "id-1") in
  let sys :=
    mkSystem
      (RegisterSymmetricKey (R.mk sampleKey true R.kRegistering (Some 0) None ""))
      [mk (KmipExchangeRegisterSymmetricKey sampleKey) kResponseReceived
         (Some (RegisterResponse "id-1"))] 0 in
  Constructed (sampleRegister true)
  /\ run evs (start (sampleRegister true) 0) = Some sys
  /\ length (List.filter (nonTerminalAt (heap sys)) (held (session sys))) = 1
  /\ exists e, last (heap sys) = Some e /\ _state e = kResponseReceived.
Proof.
  intros evs sys.
  split; [apply construct_register|]. split; [reflexivity|].
  split; [reflexivity|].
  destruct (step NextExchange sys) as [[p sys']|] eqn:Hs; [|discriminate Hs].
  destruct (one_exchange_at_a_time (sampleRegister true) 0 evs sys
              (construct_register sampleKey true) eq_refl) as (_ & Hnew).
  destruct (Hnew p sys' Hs) as [Hnil|Hlast].
  - injection Hs as _ <-. simpl. lia.
  - discriminate Hnil.
  - exact Hlast.
Defined.

(** C9.  For a constructed session of any class, the kinds of the
    exchanges that successive [nextExchange()] calls return depend on the
    constructor arguments and on the responses only: two runs of the same
    events return the same kinds whatever time passes between the events
    and whenever the runs start, and under the driver loop the kinds are a
    function of the constructor arguments and of the responses. *)
Theorem exchange_kinds_deterministic s0 evs1 evs2 t1 t2 :
  Constructed s0 ->
  untimed evs1 = untimed evs2 ->
  exchanges evs1 (start s0 t1) = exchanges evs2 (start s0 t2)
  /\ forall responses,
       (drive responses (start s0 t1)).1 = expectedKinds s0 responses
       /\ (drive responses (start s0 t2)).1 = expectedKinds s0 responses.
Proof.
  intros Hc Hev. split.
  - rewrite <- (exchanges_untimed evs1), <- (exchanges_untimed evs2), Hev.
    apply exchanges_clock.
  - intros responses. split; by apply drive_expected.
Qed.

Lemma exchange_kinds_deterministic_witness :
  let evs1 := exchangeWith 0 (VerifyResponse None) ++ [NextExchange] in
  let evs2 := Elapse 5 :: exchangeWith 0 (VerifyResponse None)
              ++ [Elapse 60; NextExchange; Elapse 1] in
  Constructed (sampleGet true)
  /\ untimed evs1 = untimed evs2
  /\ exchanges evs1 (start (sampleGet true) 0)
     = exchanges evs2 (start (sampleGet true) 1000)
  /\ exchanges evs2 (start (sampleGet true) 1000)
     = [KmipExchangeVerifyKeyIsActive "key-7"; KmipExchangeGetSymmetricKey "key-7"].
Proof.
  intros evs1 evs2.
  split; [apply construct_get|]. split; [reflexivity|].
  split; [|reflexivity].
  apply (exchange_kinds_deterministic (sampleGet true) evs1 evs2 0 1000);
    [apply construct_get | reflexivity].
Defined.

(** C10.  In every state a constructed session of any class can be driven
    to, a finished session points to no exchange: all its exchange
    pointers are null. *)
Theorem finished_holds_no_exchange s0 now evs sys :
  Constructed s0 ->
  run evs (start s0 now) = Some sys ->
  finished (session sys) = true ->
  held (session sys) = [].
Proof.
  intros Hc Hrun Hf. destruct (reachable _ _ _ _ Hc Hrun) as [HI _].
  destruct sys as [s h c]; simpl in *. by invert_inv HI.
Qed.

Lemma finished_holds_no_exchange_witness :
  let evs := exchangeWith 0 (VerifyResponse None)
             ++ exchangeWith 1 (GetResponse (Some sampleKey))
             ++ [NextExchange] in
  let sys :=
    mkSystem
      (GetSymmetricKey
         (G.mk "key-7" true G.kFinished None None (HoldsKey sampleKey)))
      [mk (KmipExchangeVerifyKeyIsActive "key-7") kInterpreted
         (Some (VerifyResponse None));
       mk (KmipExchangeGetSymmetricKey "key-7") kInterpreted
         (Some (GetResponse (Some sampleKey)))] 0 in
  Constructed (sampleGet true)
  /\ run evs (start (sampleGet true) 0) = Some sys
  /\ finished (session sys) = true
  /\ held (session sys) = [].
Proof.
  intros evs sys.
  split; [apply construct_get|]. split; [reflexivity|]. split; [reflexivity|].
  apply (finished_holds_no_exchange (sampleGet true) 0 evs sys);
    [apply construct_get | reflexivity | reflexivity].
Defined.

(** * Further properties of the sessions *)

Ltac deref_cases p h :=
  destruct p as [?l|];
  [ destruct (h !! l) as [[?k ?st ?r]|] eqn:?Hl;
    [ destruct st | ]
  | ].

Ltac split_payload r :=
  destruct r as [[?|[]|[]|[]|]|].

Ltac close_outcome :=
  mcompute; rewrite ?length_insert;
  lazymatch goal with
  | |- NextOutcome _ _ InvariantFailure =>
      eapply next_invariant; [reflexivity | eassumption | discriminate]
  | |- NextOutcome _ _ Undefined =>
      apply next_undefined;
        [reflexivity | reflexivity
        | simpl; try match goal with H : _ !! _ = None |- _ => rewrite H end;
          reflexivity]
  | Hl : ?h !! ?l = Some ?e |- NextOutcome _ _ (Throws _ _) =>
      apply (next_throws _ _ l e); [reflexivity | exact Hl | reflexivity]
  | Hl : ?h !! ?l = Some ?e |- NextOutcome _ _ (Returns None _) =>
      apply (next_last _ _ l e); [reflexivity | exact Hl | reflexivity
                                 | reflexivity | simpl; lia | reflexivity]
  | Hl : ?h !! ?l = Some ?e |- NextOutcome _ _ (Returns (Some _) (_, _ ++ [create ?k])) =>
      apply (next_more _ _ l e k); [reflexivity | exact Hl | reflexivity
                                   | reflexivity | simpl; lia | reflexivity
                                   | reflexivity]
  | |- NextOutcome _ _ (Returns (Some _) (_, _ ++ [create ?k])) =>
      apply (next_first _ _ k); [reflexivity | reflexivity | simpl; lia
                                | reflexivity | reflexivity]
  end.

Lemma nextExchange_outcome s h : NextOutcome s h (nextExchange (s, h)).
Proof.
  unfold nextExchange, upcast.
  destruct s as [[key wa [] reg act id]|[keyId vs [] ver ret key]|[keyId [] ver err]];
    cbn [fst snd].
  all: try (by apply next_done).
  all: unfold R.nextExchange, G.nextExchange, G.transitionToRetrievingState,
         V.nextExchange.
  - close_outcome.
  - deref_cases reg h; try split_payload r; destruct wa; close_outcome.
  - deref_cases act h; try split_payload r; close_outcome.
  - destruct vs; close_outcome.
  - deref_cases ver h; try split_payload r; close_outcome.
  - deref_cases ret h; try split_payload r; close_outcome.
  - close_outcome.
  - deref_cases ver h; try split_payload r; close_outcome.
Qed.

Ltac invert_outcome H :=
  let Ho := fresh "Ho" in
  match type of H with
  | nextExchange (?s, ?h) = _ =>
      pose proof (nextExchange_outcome s h) as Ho; rewrite H in Ho;
      inversion Ho; subst; clear Ho
  end.

Lemma after_outcome s h s' h' :
  after (nextExchange (s, h)) = Some (s', h') ->
  (exists p, nextExchange (s, h) = Returns p (s', h'))
  \/ (exists ex, nextExchange (s, h) = Throws ex (s', h')).
Proof.
  destruct (nextExchange (s, h)) as [p w|ex w| |]; simpl; intros [=]; subst;
    eauto.
Qed.

(** X1.  Whatever the session and the exchanges are, an exchange that
    [nextExchange()] returns is one it has just created: it is the only
    new object, and it is in its initial state.  A call that returns null
    creates nothing. *)
Theorem nextExchange_returns_fresh s h p s' h' :
  nextExchange (s, h) = Returns p (s', h') ->
  match p with
  | Some l =>
      l = length h /\ length h' = S (length h)
      /\ exists k, h' !! l = Some (create k)
  | None => length h' = length h
  end.
Proof.
  intros H. invert_outcome H; simpl.
  - done.
  - split; [done|]. rewrite length_app. simpl. split; [lia|].
    exists k. by rewrite lookup_app_r, Nat.sub_diag.
  - split; [done|]. rewrite length_app, length_insert. simpl. split; [lia|].
    exists k. rewrite lookup_app_r by (by rewrite length_insert).
    by rewrite length_insert, Nat.sub_diag.
  - by rewrite length_insert.
Qed.

Lemma nextExchange_returns_fresh_witness :
  let s' := RegisterSymmetricKey
              (R.mk sampleKey true R.kActivating None (Some 1) "id-1") in
  let h' := [mk (KmipExchangeRegisterSymmetricKey sampleKey) kInterpreted
               (Some (RegisterResponse "id-1"));
             create (KmipExchangeActivate "id-1")] in
  nextExchange (sampleRegistering, sampleReceived (RegisterResponse "id-1"))
  = Returns (Some 1) (s', h')
  /\ (1 = length (sampleReceived (RegisterResponse "id-1"))
      /\ length h' = 2
      /\ exists k, h' !! 1 = Some (create k)).
Proof.
  intros s' h'. split; [reflexivity|].
  apply (nextExchange_returns_fresh sampleRegistering
           (sampleReceived (RegisterResponse "id-1")) (Some 1) s' h').
  reflexivity.
Defined.

Lemma accessor_finished s h :
  finished s = true -> exists v, accessor (s, h) = Returns v (s, h).
Proof.
  destruct s as [[]|[]|[]]; simpl; intros Hf; case_bool_decide; try done; subst;
    eexists; reflexivity.
Qed.

(** X2.  Whatever the session and the exchanges are, [nextExchange()]
    returns null exactly when it leaves the session finished; after a null
    return the accessor returns a value instead of failing its
    invariant. *)
Theorem nextExchange_null_iff_finished s h p s' h' :
  nextExchange (s, h) = Returns p (s', h') ->
  (p = None <-> finished s' = true)
  /\ (p = None -> exists v, accessor (s', h') = Returns v (s', h')).
Proof.
  intros H.
  assert (Hiff : p = None <-> finished s' = true).
  { invert_outcome H; split; intros; try done; congruence. }
  split; [done|]. intros Hp. apply accessor_finished. by apply Hiff.
Qed.

Lemma nextExchange_null_iff_finished_witness :
  let s := RegisterSymmetricKey
             (R.mk sampleKey false R.kRegistering (Some 0) None "") in
  let s' := RegisterSymmetricKey
              (R.mk sampleKey false R.kFinished None None "id-1") in
  let h' := [mk (KmipExchangeRegisterSymmetricKey sampleKey) kInterpreted
               (Some (RegisterResponse "id-1"))] in
  nextExchange (s, sampleReceived (RegisterResponse "id-1")) = Returns None (s', h')
  /\ finished s' = true
  /\ exists v, accessor (s', h') = Returns v (s', h').
Proof.
  intros s s' h'. split; [reflexivity|].
  destruct (nextExchange_null_iff_finished s
              (sampleReceived (RegisterResponse "id-1")) None s' h' eq_refl)
    as [Hiff Hacc].
  split; [by apply Hiff | by apply Hacc].
Defined.

(** X3.  When [nextExchange()] throws, no member of the session has
    changed: the exception is the decode failure of the exchange of the
    current state, which had received its response and is now failed. *)
Theorem nextExchange_throw_keeps_session s h ex s' h' :
  nextExchange (s, h) = Throws ex (s', h') ->
  s' = s /\ ex = DecodeFailure
  /\ exists l e, current s = Some l /\ h !! l = Some e
                 /\ _state e = kResponseReceived
                 /\ h' = <[l := setState kFailed e]> h.
Proof. intros H. invert_outcome H. eauto 10. Qed.

Lemma nextExchange_throw_keeps_session_witness :
  let s := RegisterSymmetricKey
             (R.mk sampleKey true R.kActivating None (Some 0) "id-1") in
  let h st := [mk (KmipExchangeActivate "id-1") st (Some (ActivateResponse false))] in
  nextExchange (s, h kResponseReceived) = Throws DecodeFailure (s, h kFailed)
  /\ exists l e, current s = Some l /\ h kResponseReceived !! l = Some e
                 /\ _state e = kResponseReceived
                 /\ h kFailed = <[l := setState kFailed e]> (h kResponseReceived).
Proof.
  intros s h. split; [reflexivity|].
  apply (nextExchange_throw_keeps_session s (h kResponseReceived)
           DecodeFailure s (h kFailed) eq_refl).
Defined.

(** X4.  A call of [nextExchange()] that returns or throws leaves the
    constructor arguments of the session as they were. *)
Theorem nextExchange_keeps_arguments s h s' h' :
  after (nextExchange (s, h)) = Some (s', h') -> args s' = args s.
Proof.
  intros Ha. apply after_outcome in Ha as [[p H]|[ex H]]; by invert_outcome H.
Qed.

Lemma nextExchange_keeps_arguments_witness :
  let s' := RegisterSymmetricKey
              (R.mk sampleKey true R.kActivating None (Some 1) "id-1") in
  let h' := [mk (KmipExchangeRegisterSymmetricKey sampleKey) kInterpreted
               (Some (RegisterResponse "id-1"));
             create (KmipExchangeActivate "id-1")] in
  after (nextExchange (sampleRegistering, sampleReceived (RegisterResponse "id-1")))
  = Some (s', h')
  /\ args s' = RegisterArgs sampleKey true.
Proof.
  intros s' h'. split; [reflexivity|].
  apply (nextExchange_keeps_arguments sampleRegistering
           (sampleReceived (RegisterResponse "id-1")) s' h').
  reflexivity.
Defined.

(** X5.  A call of [nextExchange()] that returns from a session that is
    not finished moves the state to a later enumerator, so a session
    returns from at most three calls before it is finished; on a finished
    session the call changes nothing. *)
Theorem nextExchange_moves_forward s h p s' h' :
  nextExchange (s, h) = Returns p (s', h') ->
  if finished s then s' = s /\ h' = h /\ p = None
  else stateValue s < stateValue s' <= 3.
Proof.
  intros H.
  assert (Hb : stateValue s' <= 3) by (destruct s' as [[? ? []]|[? ? []]|[? []]]; simpl; lia).
  invert_outcome H.
  - by match goal with Hf : finished _ = true |- _ => rewrite Hf end.
  - destruct (finished s) eqn:Hf; [|lia].
    destruct s as [[? ? []]|[? ? []]|[? []]]; done.
  - destruct (finished s) eqn:Hf; [|lia].
    destruct s as [[? ? []]|[? ? []]|[? []]]; done.
  - destruct (finished s) eqn:Hf; [|lia].
    destruct s as [[? ? []]|[? ? []]|[? []]]; done.
Qed.

Lemma nextExchange_moves_forward_witness :
  let s' := RegisterSymmetricKey
              (R.mk sampleKey true R.kActivating None (Some 1) "id-1") in
  let h' := [mk (KmipExchangeRegisterSymmetricKey sampleKey) kInterpreted
               (Some (RegisterResponse "id-1"));
             create (KmipExchangeActivate "id-1")] in
  nextExchange (sampleRegistering, sampleReceived (RegisterResponse "id-1"))
  = Returns (Some 1) (s', h')
  /\ stateValue sampleRegistering < stateValue s' <= 3.
Proof.
  intros s' h'. split; [reflexivity|].
  apply (nextExchange_moves_forward sampleRegistering
           (sampleReceived (RegisterResponse "id-1")) (Some 1) s' h').
  reflexivity.
Defined.

(** X6.  A call of [nextExchange()] that returns or throws leaves every
    exchange other than the one of the current state as it is, and changes
    neither the kind nor the response of any exchange. *)
Theorem nextExchange_frame s h s' h' :
  after (nextExchange (s, h)) = Some (s', h') ->
  forall l e,
    h !! l = Some e ->
    (current s <> Some l -> h' !! l = Some e)
    /\ exists e', h' !! l = Some e' /\ kind e' = kind e
                  /\ _response e' = _response e.
Proof.
  intros Ha l e Hl.
  assert (Hins : forall l0 e0 st,
            h !! l0 = Some e0 ->
            (l0 <> l -> <[l0 := setState st e0]> h !! l = Some e)
            /\ exists e', <[l0 := setState st e0]> h !! l = Some e'
                          /\ kind e' = kind e /\ _response e' = _response e).
  { intros l0 e0 st Hl0. split.
    - intros Hne. by rewrite list_lookup_insert_ne.
    - destruct (decide (l0 = l)) as [->|Hne].
      + simplify_eq. exists (setState st e).
        split; [|done]. apply list_lookup_insert_eq. by eapply lookup_lt_Some.
      + exists e. by rewrite list_lookup_insert_ne. }
  apply after_outcome in Ha as [[p H]|[ex H]]; invert_outcome H.
  - eauto.
  - rewrite lookup_app_l by (by eapply lookup_lt_Some). eauto.
  - rewrite lookup_app_l by (rewrite length_insert; by eapply lookup_lt_Some).
    match goal with Hc : current s = Some ?l0, Hl0 : h !! ?l0 = Some ?e0 |- _ =>
      destruct (Hins l0 e0 kInterpreted Hl0) as [H1 H2]; split; [|done];
      intros Hne; apply H1; congruence end.
  - match goal with Hc : current s = Some ?l0, Hl0 : h !! ?l0 = Some ?e0 |- _ =>
      destruct (Hins l0 e0 kInterpreted Hl0) as [H1 H2]; split; [|done];
      intros Hne; apply H1; congruence end.
  - match goal with Hc : current s' = Some ?l0, Hl0 : h !! ?l0 = Some ?e0 |- _ =>
      destruct (Hins l0 e0 kFailed Hl0) as [H1 H2]; split; [|done];
      intros Hne; apply H1; congruence end.
Qed.

Lemma nextExchange_frame_witness :
  let s := GetSymmetricKey
             (G.mk "key-7" true G.kRetrieving None (Some 1) (HoldsKey defaultKey)) in
  let verified := mk (KmipExchangeVerifyKeyIsActive "key-7") kInterpreted
                    (Some (VerifyResponse None)) in
  let retrieve st := mk (KmipExchangeGetSymmetricKey "key-7") st
                       (Some (GetResponse None)) in
  let s' := GetSymmetricKey
              (G.mk "key-7" true G.kFinished None None
                 (HoldsError kKeyDoesNotExist)) in
  after (nextExchange (s, [verified; retrieve kResponseReceived]))
  = Some (s', [verified; retrieve kInterpreted])
  /\ [verified; retrieve kResponseReceived] !! 0 = Some verified
  /\ current s <> Some 0
  /\ [verified; retrieve kInterpreted] !! 0 = Some verified.
Proof.
  intros s verified retrieve s'.
  split; [reflexivity|]. split; [reflexivity|]. split; [discriminate|].
  apply (nextExchange_frame s [verified; retrieve kResponseReceived] s'
           [verified; retrieve kInterpreted] eq_refl 0 verified eq_refl).
  discriminate.
Defined.

Lemma inv_budget s0 s h : Inv s0 s h -> length h <= exchangeBudget s0.
Proof.
  intros HI. invert_inv HI; unfold exchangeBudget; simpl;
    repeat match goal with b : bool |- _ => destruct b end; simpl; try lia;
    discriminate.
Qed.

Lemma exchanges_budget s0 evs : forall sys,
  Inv s0 (session sys) (heap sys) ->
  length (heap sys) + length (exchanges evs sys) <= exchangeBudget s0.
Proof.
  induction evs as [|ev evs IH]; intros sys HI; simpl.
  - apply inv_budget in HI. lia.
  - destruct (step ev sys) as [[p sys1]|] eqn:Hs; simpl.
    + destruct (step_inv _ _ _ _ _ HI Hs) as [HI1 Hk1].
      specialize (IH _ HI1).
      apply (f_equal length) in Hk1. rewrite length_app, !length_map in Hk1.
      rewrite length_app. lia.
    + apply inv_budget in HI. lia.
Qed.

(** X7.  Whatever the driver does, a constructed session returns at most
    two exchanges, and at most one when it is a verification, a
    registration without activation or a retrieval without
    verification. *)
Theorem exchanges_within_budget s0 now evs :
  Constructed s0 ->
  length (exchanges evs (start s0 now)) <= exchangeBudget s0.
Proof.
  intros Hc.
  pose proof (exchanges_budget s0 evs (start s0 now) (constructed_inv s0 Hc)) as H.
  simpl in H. lia.
Qed.

Lemma exchanges_within_budget_witness :
  let evs := exchangeWith 0 (VerifyResponse None)
             ++ exchangeWith 1 (GetResponse None)
             ++ [NextExchange; NextExchange] in
  Constructed (sampleGet true)
  /\ length (exchanges evs (start (sampleGet true) 0)) <= 2.
Proof.
  intros evs. split; [apply construct_get|].
  apply (exchanges_within_budget (sampleGet true) 0 evs). apply construct_get.
Defined.

(** X8.  In no state a constructed session can be driven to does
    [nextExchange()] dereference a null exchange pointer. *)
Theorem reachable_nextExchange_defined s0 now evs sys :
  Constructed s0 ->
  run evs (start s0 now) = Some sys ->
  nextExchange (session sys, heap sys) <> Undefined.
Proof.
  intros Hc Hrun. destruct (reachable _ _ _ _ Hc Hrun) as [HI _].
  destruct sys as [s h c]; simpl in *.
  intros Hu. pose proof (nextExchange_outcome s h) as Ho. rewrite Hu in Ho.
  inversion Ho as [| | | | | |Hn Hf Hcur]; subst.
  invert_inv HI; try discriminate Hn; try discriminate Hf;
    repeat match goal with b : bool |- _ => destruct b end; discriminate Hcur.
Qed.

Lemma reachable_nextExchange_defined_witness :
  let evs := exchangeWith 0 (VerifyResponse None) ++ [NextExchange] in
  let sys :=
    mkSystem
      (GetSymmetricKey
         (G.mk "key-7" true G.kRetrieving None (Some 1) (HoldsKey defaultKey)))
      [mk (KmipExchangeVerifyKeyIsActive "key-7") kInterpreted
         (Some (VerifyResponse None));
       create (KmipExchangeGetSymmetricKey "key-7")] 0 in
  Constructed (sampleGet true)
  /\ run evs (start (sampleGet true) 0) = Some sys
  /\ nextExchange (session sys, heap sys) <> Undefined.
Proof.
  intros evs sys. split; [apply construct_get|]. split; [reflexivity|].
  apply (reachable_nextExchange_defined (sampleGet true) 0 evs sys);
    [apply construct_get | reflexivity].
Defined.

(** X9.  A registration with activation that is finished has interpreted
    a successful activation of the key id that [keyId()] returns. *)
Theorem register_finished_after_activation key now evs sys :
  run evs (start (RegisterSymmetricKey (R.new key true)) now) = Some sys ->
  finished (session sys) = true ->
  exists id,
    heap sys = [mk (KmipExchangeRegisterSymmetricKey key) kInterpreted
                  (Some (RegisterResponse id));
                mk (KmipExchangeActivate id) kInterpreted
                  (Some (ActivateResponse true))]
    /\ accessor (session sys, heap sys) = Returns (KeyId id) (session sys, heap sys).
Proof.
  intros Hrun Hf.
  destruct (reachable _ _ _ _ (construct_register key true) Hrun) as [HI _].
  destruct sys as [s h c]; simpl in *.
  inversion HI as [? ? ? ? HR| |]; subst.
  destruct HR as [| | |id]; try discriminate Hf. by exists id.
Qed.

Lemma register_finished_after_activation_witness :
  let evs := exchangeWith 0 (RegisterResponse "id-1")
             ++ exchangeWith 1 (ActivateResponse true) ++ [NextExchange] in
  let sys :=
    mkSystem
      (RegisterSymmetricKey (R.mk sampleKey true R.kFinished None None "id-1"))
      [mk (KmipExchangeRegisterSymmetricKey sampleKey) kInterpreted
         (Some (RegisterResponse "id-1"));
       mk (KmipExchangeActivate "id-1") kInterpreted
         (Some (ActivateResponse true))] 0 in
  run evs (start (sampleRegister true) 0) = Some sys
  /\ finished (session sys) = true
  /\ accessor (session sys, heap sys) = Returns (KeyId "id-1") (session sys, heap sys).
Proof.
  intros evs sys. split; [reflexivity|]. split; [reflexivity|].
  destruct (register_finished_after_activation sampleKey 0 evs sys
              eq_refl eq_refl) as (id & Hh & Hacc).
  injection Hh as <-. exact Hacc.
Defined.

(** X10.  The result of a finished retrieval: the error of the
    verification, when the verification reported one, and otherwise the
    key of the retrieve response or [kKeyDoesNotExist]; with verification
    the retrieval follows a verification that reported no error. *)
Theorem get_finished_result keyId verifyState now evs sys :
  run evs (start (GetSymmetricKey (G.new keyId verifyState)) now) = Some sys ->
  finished (session sys) = true ->
  (verifyState = true
   /\ exists err,
        heap sys = [mk (KmipExchangeVerifyKeyIsActive keyId) kInterpreted
                      (Some (VerifyResponse (Some err)))]
        /\ accessor (session sys, heap sys)
           = Returns (KeyResult (HoldsError err)) (session sys, heap sys))
  \/ (exists k,
        heap sys
        = (if verifyState
           then [mk (KmipExchangeVerifyKeyIsActive keyId) kInterpreted
                   (Some (VerifyResponse None))]
           else [])
          ++ [mk (KmipExchangeGetSymmetricKey keyId) kInterpreted
                (Some (GetResponse k))]
        /\ accessor (session sys, heap sys)
           = Returns (KeyResult match k with
                                | Some key => HoldsKey key
                                | None => HoldsError kKeyDoesNotExist
                                end)
               (session sys, heap sys)).
Proof.
  intros Hrun Hf.
  destruct (reachable _ _ _ _ (construct_get keyId verifyState) Hrun) as [HI _].
  destruct sys as [s h c]; simpl in *.
  inversion HI as [|? ? ? ? HG|]; subst.
  destruct HG as [| | |err ->|k]; try discriminate Hf.
  - left. split; [done|]. by exists err.
  - right. exists k. split; [done|]. by destruct k.
Qed.

Lemma get_finished_result_witness :
  let evs := exchangeWith 0 (VerifyResponse (Some kKeyIsNotActive))
             ++ [NextExchange] in
  let sys :=
    mkSystem
      (GetSymmetricKey
         (G.mk "key-7" true G.kFinished None None (HoldsError kKeyIsNotActive)))
      [mk (KmipExchangeVerifyKeyIsActive "key-7") kInterpreted
         (Some (VerifyResponse (Some kKeyIsNotActive)))] 0 in
  run evs (start (sampleGet true) 0) = Some sys
  /\ finished (session sys) = true
  /\ accessor (session sys, heap sys)
     = Returns (KeyResult (HoldsError kKeyIsNotActive)) (session sys, heap sys).
Proof.
  intros evs sys. split; [reflexivity|]. split; [reflexivity|].
  destruct (get_finished_result "key-7" true 0 evs sys eq_refl eq_refl)
    as [(_ & err & Hh & Hacc)|(k & Hh & _)].
  - injection Hh as <-. exact Hacc.
  - discriminate Hh.
Defined.

(** * Properties of the benchmark helpers *)

Import ChunkManagerRefreshBm.
Local Open Scope Z_scope.


(** X11.  [getShardId] gives different shard ids for different
    numbers. *)
Theorem getShardId_injective i j : getShardId i = getShardId j -> i = j.
Proof.
  unfold getShardId. intros H. apply (inj (String.app "shard_")) in H.
  by apply (inj pretty) in H.
Qed.

Lemma getShardId_injective_witness :
  getShardId 12 = getShardId (7 + 5) /\ 12 = 7 + 5.
Proof.
  split; [reflexivity|]. apply (getShardId_injective 12 (7 + 5)). reflexivity.
Defined.

Lemma getRangeForChunk_value i nChunks :
  0 <= i < nChunks -> (nChunks - 2) * 100 <= INT_MAX ->
  getRangeForChunk i nChunks tt =
    Returns (mkChunkRange (if bool_decide (i = 0) then MinKey
                           else Number ((i - 1) * 100))
                          (if bool_decide (i = nChunks - 1) then MaxKey
                           else Number (i * 100))) tt.
Proof.
  intros Hi Hn. unfold INT_MAX in Hn.
  cbv [getRangeForChunk check defined int mbind M_bind mret M_ret].
  rewrite !(bool_decide_eq_true_2 (_ >= _)), (bool_decide_eq_true_2 (_ > _)),
    (bool_decide_eq_true_2 (i < _)) by lia. cbn beta iota.
  destruct (bool_decide_reflect (i = 0)) as [->|Hi0]; cbn beta iota.
  - rewrite (bool_decide_eq_true_2 (INT_MIN <= nChunks - 1 <= INT_MAX))
      by (unfold INT_MIN, INT_MAX; lia). cbn beta iota.
    destruct (bool_decide_reflect (0 = nChunks - 1)); cbn beta iota; [done|].
    rewrite bool_decide_eq_true_2 by (unfold INT_MIN, INT_MAX; lia). done.
  - rewrite (bool_decide_eq_true_2 (INT_MIN <= i - 1 <= INT_MAX))
      by (unfold INT_MIN, INT_MAX; lia). cbn beta iota.
    rewrite (bool_decide_eq_true_2 (INT_MIN <= (i - 1) * 100 <= INT_MAX))
      by (unfold INT_MIN, INT_MAX; lia). cbn beta iota.
    rewrite (bool_decide_eq_true_2 (INT_MIN <= nChunks - 1 <= INT_MAX))
      by (unfold INT_MIN, INT_MAX; lia). cbn beta iota.
    destruct (bool_decide_reflect (i = nChunks - 1)); cbn beta iota; [done|].
    rewrite bool_decide_eq_true_2 by (unfold INT_MIN, INT_MAX; lia). done.
Qed.

Lemma getRangeForChunk_out_of_range i nChunks :
  ~ (0 <= i < nChunks) -> getRangeForChunk i nChunks tt = InvariantFailure.
Proof.
  intros Hi. cbv [getRangeForChunk check mbind M_bind].
  destruct (bool_decide_reflect (i >= 0)); [|done].
  destruct (bool_decide_reflect (nChunks > 0)); [|done].
  destruct (bool_decide_reflect (i < nChunks)); [|done]. lia.
Qed.

(** X12.  [getRangeForChunk(i, nChunks)] returns a range when
    [0 <= i < nChunks] and fails an invariant otherwise, as long as the
    bounds fit an [int]. *)
Theorem getRangeForChunk_defined i nChunks :
  (nChunks - 2) * 100 <= INT_MAX ->
  if bool_decide (0 <= i < nChunks)
  then exists range, getRangeForChunk i nChunks tt = Returns range tt
  else getRangeForChunk i nChunks tt = InvariantFailure.
Proof.
  intros Hmax. case_bool_decide as Hi.
  - eexists. by apply getRangeForChunk_value.
  - by apply getRangeForChunk_out_of_range.
Qed.

Lemma getRangeForChunk_defined_witness :
  (4 - 2) * 100 <= INT_MAX
  /\ (exists range, getRangeForChunk 3 4 tt = Returns range tt)
  /\ getRangeForChunk 4 4 tt = InvariantFailure
  /\ getRangeForChunk (-1) 4 tt = InvariantFailure.
Proof.
  assert (Hmax : (4 - 2) * 100 <= INT_MAX) by (unfold INT_MAX; lia).
  split; [exact Hmax|]. split; [|split].
  - apply (getRangeForChunk_defined 3 4 Hmax).
  - apply (getRangeForChunk_defined 4 4 Hmax).
  - apply (getRangeForChunk_defined (-1) 4 Hmax).
Defined.

(** X13.  The ranges of consecutive chunks meet: chunk [i] ends at
    [i * 100], where chunk [i + 1] starts; the first chunk starts at
    [MinKey] and the last ends at [MaxKey]. *)
Theorem getRangeForChunk_adjacent i nChunks :
  0 <= i -> i + 1 < nChunks -> (nChunks - 2) * 100 <= INT_MAX ->
  exists lo hi,
    getRangeForChunk i nChunks tt
    = Returns (mkChunkRange lo (Number (i * 100))) tt
    /\ getRangeForChunk (i + 1) nChunks tt
       = Returns (mkChunkRange (Number (i * 100)) hi) tt
    /\ (i = 0 -> lo = MinKey)
    /\ (i + 1 = nChunks - 1 -> hi = MaxKey).
Proof.
  intros Hi Hn Hmax.
  rewrite !getRangeForChunk_value by lia.
  rewrite (bool_decide_eq_false_2 (i = nChunks - 1)) by lia.
  rewrite (bool_decide_eq_false_2 (i + 1 = 0)) by lia.
  replace (i + 1 - 1) with i by lia.
  eexists _, _. split; [reflexivity|]. split; [reflexivity|]. split.
  - intros ->. done.
  - intros Hl. by rewrite bool_decide_eq_true_2.
Qed.

Lemma getRangeForChunk_adjacent_witness :
  0 <= 1 /\ 1 + 1 < 4 /\ (4 - 2) * 100 <= INT_MAX
  /\ exists lo hi,
       getRangeForChunk 1 4 tt = Returns (mkChunkRange lo (Number 100)) tt
       /\ getRangeForChunk 2 4 tt = Returns (mkChunkRange (Number 100) hi) tt.
Proof.
  assert (Hmax : (4 - 2) * 100 <= INT_MAX) by (unfold INT_MAX; lia).
  split; [lia|]. split; [lia|]. split; [exact Hmax|].
  destruct (getRangeForChunk_adjacent 1 4 ltac:(lia) ltac:(lia) Hmax)
    as (lo & hi & H1 & H2 & _).
  exists lo, hi. split; [exact H1 | exact H2].
Defined.




Lemma optimalShardSelector_value i nShards nChunks :
  0 <= i < nChunks -> 0 < nShards <= nChunks ->
  optimalShardSelector i nShards nChunks tt
  = Returns (getShardId (i * nShards / nChunks)) tt
  /\ 0 <= i * nShards / nChunks < nShards.
Proof.
  intros Hi Hs.
  assert (Hb : 0 <= i * nShards / nChunks < nShards).
  { split; [apply Z.div_pos; nia|]. apply Z.div_lt_upper_bound; nia. }
  split; [|done].
  cbv [optimalShardSelector check quot64 rem64 defined mbind M_bind mret M_ret].
  rewrite (bool_decide_eq_true_2 (nShards <= nChunks)) by lia. cbn beta iota.
  rewrite (bool_decide_eq_true_2 (nChunks <> 0)) by lia. cbn beta iota.
  rewrite (bool_decide_eq_true_2 (nShards <> 0)) by lia. cbn beta iota.
  rewrite Z.quot_div_nonneg by nia.
  rewrite Z.rem_mod_nonneg by lia.
  by rewrite Z.mod_small.
Qed.

(** X15.  [optimalShardSelector] keeps the chunks of a shard together:
    the shard number is below [nShards] and never decreases with the chunk
    index. *)
Theorem optimalShardSelector_contiguous i j nShards nChunks :
  0 <= i -> i <= j -> j < nChunks -> 0 < nShards <= nChunks ->
  exists m n,
    optimalShardSelector i nShards nChunks tt = Returns (getShardId m) tt
    /\ optimalShardSelector j nShards nChunks tt = Returns (getShardId n) tt
    /\ 0 <= m /\ m <= n /\ n < nShards.
Proof.
  intros Hi Hij Hj Hs.
  destruct (optimalShardSelector_value i nShards nChunks) as [-> Hm]; [lia..|].
  destruct (optimalShardSelector_value j nShards nChunks) as [-> Hn]; [lia..|].
  eexists _, _. split; [reflexivity|]. split; [reflexivity|].
  split; [lia|]. split; [|lia]. apply Z.div_le_mono; nia.
Qed.

Lemma optimalShardSelector_contiguous_witness :
  0 <= 2 /\ 2 <= 7 /\ 7 < 10 /\ 0 < 4 <= 10
  /\ exists m n,
       optimalShardSelector 2 4 10 tt = Returns (getShardId m) tt
       /\ optimalShardSelector 7 4 10 tt = Returns (getShardId n) tt
       /\ 0 <= m /\ m <= n /\ n < 4.
Proof.
  split; [lia|]. split; [lia|]. split; [lia|]. split; [lia|].
  apply (optimalShardSelector_contiguous 2 7 4 10); lia.
Defined.

(** X16.  [optimalShardSelector] leaves no shard empty: with no more
    shards than chunks, every shard gets a chunk. *)
Theorem optimalShardSelector_every_shard n nShards nChunks :
  0 <= n < nShards -> nShards <= nChunks ->
  exists i,
    0 <= i < nChunks
    /\ optimalShardSelector i nShards nChunks tt = Returns (getShardId n) tt.
Proof.
  intros Hn Hs.
  set (i := (n * nChunks + nShards - 1) / nShards).
  assert (Hlo : n * nChunks <= i * nShards).
  { pose proof (Z.div_mod (n * nChunks + nShards - 1) nShards ltac:(lia)) as Hd.
    pose proof (Z.mod_pos_bound (n * nChunks + nShards - 1) nShards ltac:(lia)).
    fold i in Hd. nia. }
  assert (Hhi : i * nShards <= n * nChunks + nShards - 1).
  { pose proof (Z.div_mod (n * nChunks + nShards - 1) nShards ltac:(lia)) as Hd.
    pose proof (Z.mod_pos_bound (n * nChunks + nShards - 1) nShards ltac:(lia)).
    fold i in Hd. nia. }
  assert (Hi : 0 <= i < nChunks) by nia.
  exists i. split; [done|].
  destruct (optimalShardSelector_value i nShards nChunks) as [-> _]; [lia..|].
  do 2 f_equal. symmetry. apply Z.div_unique with (i * nShards - n * nChunks); nia.
Qed.

Lemma optimalShardSelector_every_shard_witness :
  0 <= 3 < 4 /\ 4 <= 10
  /\ exists i,
       0 <= i < 10
       /\ optimalShardSelector i 4 10 tt = Returns (getShardId 3) tt.
Proof.
  split; [lia|]. split; [lia|].
  apply (optimalShardSelector_every_shard 3 4 10); lia.
Defined.




Lemma succ_mod (n len : nat) :
  (0 < len)%nat ->
  (S n `mod` len)%nat
  = if bool_decide (S (n `mod` len) = len)%nat then 0%nat else S (n `mod` len).
Proof.
  intros Hlen.
  pose proof (Nat.div_mod_eq n len) as Hd.
  pose proof (Nat.mod_upper_bound n len ltac:(lia)) as Hb.
  case_bool_decide as Heq.
  - symmetry. apply (Nat.mod_unique _ _ (S (n / len))); [lia|]. nia.
  - symmetry. apply (Nat.mod_unique _ _ (n / len)); [lia|]. nia.
Qed.

Lemma CircularIterator_position {A} (c : list A) n :
  (0 < length c)%nat ->
  Nat.iter n CircularIterator.preIncrement
    (CircularIterator.mk c 0 (length c) 0)
  = CircularIterator.mk c 0 (length c) (n `mod` length c)%nat.
Proof.
  intros Hlen. induction n as [|n IH].
  - simpl. by rewrite Nat.Div0.mod_0_l.
  - rewrite Nat.iter_succ, IH. unfold CircularIterator.preIncrement.
    cbn [CircularIterator._curr CircularIterator._end CircularIterator._begin
         CircularIterator.container].
    rewrite succ_mod by lia. by case_bool_decide.
Qed.

(** X18.  A [CircularIterator] cannot be made for an empty container;
    for any other, [n] increments lead to the element at [n] modulo the
    size, so the iterator never leaves the container. *)
Theorem CircularIterator_cycles {A} (c : list A) n :
  match c with
  | [] => CircularIterator.new c tt = InvariantFailure
  | _ :: _ =>
      exists it a,
        CircularIterator.new c tt = Returns it tt
        /\ c !! (n `mod` length c)%nat = Some a
        /\ CircularIterator.deref
             (Nat.iter n CircularIterator.preIncrement it) tt
           = Returns a tt
  end.
Proof.
  destruct c as [|a0 c0] eqn:Hc; [reflexivity|]. rewrite <- Hc.
  assert (Hlen : (0 < length c)%nat) by (subst c; simpl; lia).
  clear Hc.
  destruct (lookup_lt_is_Some_2 c (n `mod` length c)%nat) as [a Ha].
  { apply Nat.mod_upper_bound. lia. }
  exists (CircularIterator.mk c 0 (length c) 0), a.
  split.
  { unfold CircularIterator.new. cbv [mbind M_bind mret M_ret check].
    cbn [CircularIterator._begin CircularIterator._end].
    by rewrite bool_decide_eq_true_2 by lia. }
  split; [done|].
  rewrite CircularIterator_position by done. unfold CircularIterator.deref.
  cbn [CircularIterator._curr CircularIterator.container]. by rewrite Ha.
Qed.

Lemma CircularIterator_cycles_witness :
  exists it,
    CircularIterator.new [10; 20; 30] tt = Returns it tt
    /\ CircularIterator.deref (Nat.iter 7 CircularIterator.preIncrement it) tt
       = Returns 20 tt.
Proof.
  destruct (CircularIterator_cycles [10; 20; 30] 7) as (it & a & Hnew & Ha & Hd).
  exists it. split; [exact Hnew|].
  injection Ha as <-. exact Hd.
Defined.

Section RangesFacts.
Context {K : Type} (woCompare : K -> K -> Z).
Hypothesis woCompare_flip : forall a b, woCompare a b > 0 -> woCompare b a < 0.

Lemma rangesFrom_ordered (keys : list K) : forall acc rs,
  rangesFrom woCompare keys acc tt = Returns rs tt ->
  Forall (fun r => woCompare r.1 r.2 < 0) acc ->
  Forall (fun r => woCompare r.1 r.2 < 0) rs
  /\ (length rs <= length acc + length keys / 2)%nat
  /\ Nat.Even (length keys).
Proof.
  induction keys as [keys IH] using (induction_ltof1 _ (@length K)).
  unfold ltof in IH. intros acc rs Hrun Hacc.
  destruct keys as [|k1 [|k2 keys]]; simpl in Hrun.
  - injection Hrun as <-. simpl. split; [done|]. split; [lia|]. by exists 0%nat.
  - done.
  - assert (Hhalf : (length (k1 :: k2 :: keys) / 2 = S (length keys / 2))%nat).
    { change (length (k1 :: k2 :: keys)) with (1 * 2 + length keys)%nat.
      rewrite Nat.add_comm, Nat.div_add by lia. lia. }
    assert (Heven : Nat.Even (length keys) -> Nat.Even (length (k1 :: k2 :: keys))).
    { intros [m Hm]. exists (S m). simpl. lia. }
    rewrite Hhalf.
    case_bool_decide as Heq.
    + destruct (IH keys ltac:(simpl; lia) _ _ Hrun Hacc) as (? & ? & ?).
      split; [done|]. split; [lia|auto].
    + case_bool_decide as Hgt.
      * destruct (IH keys ltac:(simpl; lia) _ _ Hrun) as (? & Hl & ?).
        { apply Forall_app. split; [done|]. repeat constructor. simpl. auto. }
        rewrite length_app in Hl. cbn [length] in Hl.
        split; [done|]. split; [lia|auto].
      * destruct (IH keys ltac:(simpl; lia) _ _ Hrun) as (? & Hl & ?).
        { apply Forall_app. split; [done|]. repeat constructor. simpl. lia. }
        rewrite length_app in Hl. cbn [length] in Hl.
        split; [done|]. split; [lia|auto].
Qed.

(** X19.  For a comparator whose "greater" is the opposite of its
    "less", every range [makeRanges] returns has its first key below its
    second, and there are at most half as many ranges as keys. *)
Theorem makeRanges_ordered (keys : list K) rs :
  makeRanges woCompare keys tt = Returns rs tt ->
  Forall (fun r => woCompare r.1 r.2 < 0) rs
  /\ (length rs <= length keys / 2)%nat.
Proof.
  intros Hrun.
  destruct (rangesFrom_ordered keys [] rs Hrun) as (? & ? & ?); [done|].
  split; [done|]. simpl in *. lia.
Qed.
End RangesFacts.

Lemma makeRanges_ordered_witness :
  (forall a b : Z, a - b > 0 -> b - a < 0)
  /\ makeRanges Z.sub [5; 3; 4; 4; 1; 2] tt = Returns [(3, 5); (1, 2)] tt
  /\ Forall (fun r : Z * Z => r.1 - r.2 < 0) [(3, 5); (1, 2)].
Proof.
  assert (Hflip : forall a b : Z, a - b > 0 -> b - a < 0) by (intros; lia).
  split; [exact Hflip|]. split; [reflexivity|].
  apply (makeRanges_ordered Z.sub Hflip [5; 3; 4; 4; 1; 2] [(3, 5); (1, 2)]).
  reflexivity.
Defined.

Lemma rangesFrom_odd {K} (woCompare : K -> K -> Z) (keys : list K) : forall acc,
  Nat.Odd (length keys) -> rangesFrom woCompare keys acc tt = Undefined.
Proof.
  induction keys as [keys IH] using (induction_ltof1 _ (@length K)).
  unfold ltof in IH. intros acc [m Hm].
  destruct keys as [|k1 [|k2 keys]]; simpl in *.
  - lia.
  - done.
  - assert (Hodd : Nat.Odd (length keys)) by (exists (m - 1)%nat; lia).
    repeat case_bool_decide; apply IH; simpl; auto.
Qed.

(** X20.  For an odd number of keys [makeRanges] reads past the end of
    the keys. *)
Theorem makeRanges_odd {K} (woCompare : K -> K -> Z) (keys : list K) :
  Nat.Odd (length keys) -> makeRanges woCompare keys tt = Undefined.
Proof. apply rangesFrom_odd. Qed.

Lemma makeRanges_odd_witness :
  Nat.Odd (length [1; 2; 3]) /\ makeRanges Z.sub [1; 2; 3] tt = Undefined.
Proof.
  assert (Hodd : Nat.Odd (length [1; 2; 3])) by (exists 1%nat; reflexivity).
  split; [exact Hodd|]. apply (makeRanges_odd Z.sub [1; 2; 3] Hodd).
Defined.

(** * Properties of [writeConflictRetry] *)

Import WriteConflictRetry.

Section RetryFacts.
Context {A : Type}.
Variable f : nat -> DBException + A.
Variable shouldFail : bool.
Variable handleTU :
  OperationContext -> Z -> string -> string -> DBException -> option DBException.
Variable handleTUInTransaction :
  OperationContext -> string -> string -> DBException -> option DBException.
Variable handleTooLarge :
  OperationContext -> Z -> string -> string -> DBException -> DBException + Z.
Variables (opStr ns : string).

Abbreviation retry := (retry f handleTU handleTooLarge opStr ns).
Abbreviation writeConflictRetry :=
  (writeConflictRetry f shouldFail handleTU handleTUInTransaction handleTooLarge
     opStr ns).
Abbreviation conflictEffects := (conflictEffects f opStr ns).
Abbreviation isWriteConflict := (isWriteConflict f).
Abbreviation unavailableEffects := (unavailableEffects f opStr ns).
Abbreviation isTemporarilyUnavailable := (isTemporarilyUnavailable f).
Abbreviation retried := (retried f).
Abbreviation retries := (retries shouldFail).

Lemma retry_conflicts opCtx n : forall fuel calls attempts tu effects,
  (forall k, (calls <= k < calls + n)%nat -> isWriteConflict k) ->
  attempts = Z.of_nat calls -> Z.of_nat (calls + n) <= INT_MAX ->
  retry opCtx (n + fuel) calls attempts tu effects
  = retry opCtx fuel (calls + n) (Z.of_nat (calls + n)) tu
      (effects ++ flat_map conflictEffects (seq calls n)).
Proof.
  induction n as [|n IH]; intros fuel calls attempts tu effects Hwc -> Hmax.
  - simpl. by rewrite Nat.add_0_r, app_nil_r.
  - destruct (Hwc calls ltac:(lia)) as (e & Hf & Hcode).
    cbn [Nat.add retry]. rewrite Hf, Hcode.
    rewrite bool_decide_eq_true_2 by lia.
    rewrite IH; [|intros; apply Hwc; lia|lia|lia].
    replace (S calls + n)%nat with (calls + S n)%nat by lia.
    f_equal. cbn [seq flat_map]. unfold conflictEffects at 2. rewrite Hf.
    rewrite <- !app_assoc. reflexivity.
Qed.

Lemma retries_inv opCtx :
  retries opCtx = true ->
  exists locker,
    lockState opCtx = Some locker /\ recoveryUnit opCtx = true
    /\ inAWriteUnitOfWork locker || shouldFail && isFromUserConnection opCtx
       = false.
Proof.
  unfold retries. destruct (lockState opCtx) as [locker|]; [|done].
  intros [Hr Hn]%andb_true_iff. apply negb_true_iff in Hn. eauto.
Qed.

Lemma writeConflictRetry_loop opCtx fuel :
  retries opCtx = true ->
  writeConflictRetry (Some opCtx) fuel = retry opCtx fuel 0%nat 0 0 [].
Proof.
  intros (locker & Hl & Hr & Hn)%retries_inv.
  unfold WriteConflictRetry.writeConflictRetry. by rewrite Hl, Hr, Hn.
Qed.

Theorem writeConflictRetry_checks_context opCtx fuel :
  match opCtx with
  | None => True
  | Some opCtx => lockState opCtx = None \/ recoveryUnit opCtx = false
  end ->
  writeConflictRetry opCtx fuel = Some (mkRun InvariantFailed 0 []).
Proof.
  destruct opCtx as [[[locker|] []]|]; simpl; intros H; try done;
    by destruct H.
Qed.



(** X23.  There is no upper limit on the retries of write conflicts: as
    long as [f] throws them, the loop calls [f] again (as far as the [int]
    counter reaches). *)
Theorem writeConflictRetry_never_gives_up opCtx fuel :
  retries opCtx = true ->
  (forall k, isWriteConflict k) ->
  Z.of_nat fuel <= INT_MAX ->
  writeConflictRetry (Some opCtx) fuel = None.
Proof.
  intros Hretries Hwc Hmax.
  rewrite writeConflictRetry_loop by done.
  rewrite <- (Nat.add_0_r fuel).
  by rewrite (retry_conflicts opCtx fuel _ 0%nat).
Qed.

Lemma retry_returned opCtx fuel : forall calls0 attempts tu effects0 run a,
  retry opCtx fuel calls0 attempts tu effects0 = Some run ->
  outcome run = Returned a ->
  (calls0 < calls run)%nat
  /\ f (calls run - 1)%nat = inr a
  /\ forall k, (calls0 <= k < calls run - 1)%nat -> retried k.
Proof.
  induction fuel as [|fuel IH]; intros calls0 attempts tu effects0 run a Hrun Hout;
    [done|].
  cbn [WriteConflictRetry.retry] in Hrun.
  assert (Hstep : forall e attempts' tu' effects',
            f calls0 = inl e ->
            (code e = ErrorCodes.WriteConflict
             \/ code e = ErrorCodes.TemporarilyUnavailable
             \/ code e = ErrorCodes.TransactionTooLargeForCache) ->
            retry opCtx fuel (S calls0) attempts' tu' effects' = Some run ->
            (calls0 < calls run)%nat
            /\ f (calls run - 1)%nat = inr a
            /\ forall k, (calls0 <= k < calls run - 1)%nat -> retried k).
  { intros e attempts' tu' effects' Hf Hcode Hrec.
    destruct (IH _ _ _ _ _ _ Hrec Hout) as (Hlt & Hlast & Hall).
    split; [lia|]. split; [done|]. intros k Hk.
    destruct (decide (k = calls0)) as [->|Hne]; [by exists e|].
    apply Hall. lia. }
  destruct (f calls0) as [e|a'] eqn:Hf.
  - destruct (code e) eqn:Hcode.
    + case_bool_decide; [by eapply Hstep; eauto|].
      injection Hrun as <-. done.
    + case_bool_decide; [|by injection Hrun as <-].
      destruct (handleTU _ _ _ _ _); [by injection Hrun as <-|].
      by eapply Hstep; eauto.
    + destruct (handleTooLarge _ _ _ _ _); [by injection Hrun as <-|].
      by eapply Hstep; eauto.
    + by injection Hrun as <-.
  - injection Hrun as <-. simpl in *. injection Hout as ->.
    rewrite Nat.sub_0_r. split; [lia|]. split; [done|]. intros; lia.
Qed.

(** X24.  A value [writeConflictRetry] returns is the value the last call
    of [f] returned, and every call before it threw one of the three
    retried exceptions. *)
Theorem writeConflictRetry_returns_what_f_returned opCtx fuel run a :
  writeConflictRetry opCtx fuel = Some run ->
  outcome run = Returned a ->
  (0 < calls run)%nat
  /\ f (calls run - 1)%nat = inr a
  /\ forall k, (k < calls run - 1)%nat -> retried k.
Proof.
  unfold WriteConflictRetry.writeConflictRetry.
  destruct opCtx as [opCtx|]; [|by intros [= <-]].
  destruct (lockState opCtx) as [locker|]; [|by intros [= <-]].
  destruct (recoveryUnit opCtx); simpl; [|by intros [= <-]].
  destruct (inAWriteUnitOfWork locker || shouldFail && isFromUserConnection opCtx).
  - destruct (f 0%nat) as [e|a'] eqn:Hf.
    + destruct (code e); try (by intros [= <-]).
      destruct (inMultiDocumentTransaction opCtx); [|by intros [= <-]].
      destruct (handleTUInTransaction _ _ _ _); by intros [= <-].
    + intros [= <-] [= ->]. simpl. split; [lia|]. split; [done|]. intros; lia.
  - intros Hrun Hout.
    destruct (retry_returned _ _ _ _ _ _ _ _ Hrun Hout) as (? & ? & Hall).
    split; [lia|]. split; [done|]. intros k Hk. apply Hall. lia.
Qed.
Lemma retry_unavailable opCtx n : forall fuel calls wc attempts effects,
  (forall k, (calls <= k < calls + n)%nat -> isTemporarilyUnavailable k) ->
  (forall k e, (calls <= k < calls + n)%nat -> f k = inl e ->
               handleTU opCtx (Z.of_nat k + 1) opStr ns e = None) ->
  attempts = Z.of_nat calls -> Z.of_nat (calls + n) <= INT_MAX ->
  retry opCtx (n + fuel) calls wc attempts effects
  = retry opCtx fuel (calls + n) wc (Z.of_nat (calls + n))
      (effects ++ flat_map unavailableEffects (seq calls n)).
Proof.
  induction n as [|n IH]; intros fuel calls wc attempts effects Htu Hh -> Hmax.
  - simpl. by rewrite Nat.add_0_r, app_nil_r.
  - destruct (Htu calls ltac:(lia)) as (e & Hf & Hcode).
    cbn [Nat.add WriteConflictRetry.retry]. rewrite Hf, Hcode.
    rewrite bool_decide_eq_true_2 by lia.
    rewrite (Hh calls e) by (done || lia).
    rewrite IH; [|intros; apply Htu; lia|intros; apply Hh; [lia|done]|lia|lia].
    replace (S calls + n)%nat with (calls + S n)%nat by lia.
    f_equal. cbn [seq flat_map].
    unfold unavailableEffects at 2. rewrite Hf.
    rewrite <- !app_assoc. reflexivity.
Qed.

(** X25. Where [writeConflictRetry] retries and every call of [f] throws a
    [TemporarilyUnavailableException], the handler is asked after each call
    with the attempts numbered 1, 2, 3, ...; as long as it returns, [f] is
    called again, and the first time it throws, at the attempt [n + 1], its
    exception leaves [writeConflictRetry] after exactly [n + 1] calls of
    [f].  No write conflict is counted or logged and no snapshot is
    abandoned on the way. *)
Theorem writeConflictRetry_unavailable_until_handler_throws
    opCtx n fuel e e' :
  retries opCtx = true ->
  (forall k, (k < n)%nat -> isTemporarilyUnavailable k) ->
  (forall k e0, (k < n)%nat -> f k = inl e0 ->
                handleTU opCtx (Z.of_nat k + 1) opStr ns e0 = None) ->
  f n = inl e -> code e = ErrorCodes.TemporarilyUnavailable ->
  handleTU opCtx (Z.of_nat n + 1) opStr ns e = Some e' ->
  Z.of_nat n < INT_MAX -> (n < fuel)%nat ->
  writeConflictRetry (Some opCtx) fuel
  = Some (mkRun (Thrown e') (S n)
            (flat_map unavailableEffects (seq 0 (S n)))).
Proof.
  intros Hretries Htu Hquiet Hf Hcode Hthrow Hmax Hfuel.
  rewrite writeConflictRetry_loop by done.
  replace fuel with (n + S (fuel - S n))%nat by lia.
  rewrite (retry_unavailable opCtx n _ 0%nat);
    [|intros; apply Htu; lia|intros; apply Hquiet; [lia|done]|done|simpl; lia].
  cbn [Nat.add WriteConflictRetry.retry app]. rewrite Hf, Hcode.
  rewrite bool_decide_eq_true_2 by lia. rewrite Hthrow.
  do 2 f_equal. rewrite seq_S, flat_map_app. cbn [Nat.add flat_map].
  unfold unavailableEffects at 3. by rewrite Hf, app_nil_r.
Qed.
End RetryFacts.

Lemma writeConflictRetry_unavailable_until_handler_throws_witness :
  let opCtx := sampleContext false in
  let e := throwTemporarilyUnavailableException "cache pressure" in
  let f : nat -> DBException + nat := fun _ => inl e in
  retries false opCtx = true
  /\ (forall k, (k < 2)%nat -> isTemporarilyUnavailable f k)
  /\ givesUpAt 3 opCtx (Z.of_nat 2 + 1) "update" "test.foo" e = Some e
  /\ writeConflictRetry f false (givesUpAt 3) (fun _ _ _ => noHandler)
       (fun _ n _ _ _ => inr n) "update" "test.foo" (Some opCtx) 5
     = Some (mkRun (Thrown e) 3
               [HandleTemporarilyUnavailable 1 "update" "test.foo" e;
                HandleTemporarilyUnavailable 2 "update" "test.foo" e;
                HandleTemporarilyUnavailable 3 "update" "test.foo" e]).
Proof.
  intros opCtx e f.
  assert (Htu : forall k, (k < 2)%nat -> isTemporarilyUnavailable f k).
  { intros k _. exists e. split; reflexivity. }
  assert (Hquiet : forall k e0, (k < 2)%nat -> f k = inl e0 ->
            givesUpAt 3 opCtx (Z.of_nat k + 1) "update" "test.foo" e0 = None).
  { intros k e0 Hk _. unfold givesUpAt. by rewrite bool_decide_eq_false_2 by lia. }
  assert (Hmax : Z.of_nat 2 < INT_MAX) by (unfold INT_MAX; lia).
  split; [reflexivity|]. split; [exact Htu|]. split; [reflexivity|].
  apply (writeConflictRetry_unavailable_until_handler_throws f false
           (givesUpAt 3) (fun _ _ _ => noHandler) (fun _ n _ _ _ => inr n)
           "update" "test.foo" opCtx 2 5 e e eq_refl Htu Hquiet eq_refl
           eq_refl eq_refl Hmax ltac:(lia)).
Defined.

Lemma writeConflictRetry_returns_what_f_returned_witness :
  let opCtx := sampleContext false in
  let f := conflictsThen 2 7%nat in
  let run := mkRun (Returned 7%nat) 3
               (flat_map (conflictEffects f "update" "test.foo") (seq 0 2)) in
  writeConflictRetry f false (fun _ _ _ _ => noHandler)
    (fun _ _ _ => noHandler) (fun _ n _ _ _ => inr n) "update" "test.foo"
    (Some opCtx) 5
  = Some run
  /\ outcome run = Returned 7%nat
  /\ f (calls run - 1)%nat = inr 7%nat.
Proof.
  intros opCtx f run. split; [reflexivity|]. split; [reflexivity|].
  apply (writeConflictRetry_returns_what_f_returned f false
           (fun _ _ _ _ => noHandler) (fun _ _ _ => noHandler)
           (fun _ n _ _ _ => inr n) "update" "test.foo" (Some opCtx) 5 run
           7%nat eq_refl eq_refl).
Defined.

Lemma writeConflictRetry_never_gives_up_witness :
  let opCtx := sampleContext false in
  let f : nat -> DBException + nat :=
    fun _ => inl (throwWriteConflictException "update") in
  retries false opCtx = true
  /\ (forall k, isWriteConflict f k)
  /\ Z.of_nat 1000 <= INT_MAX
  /\ writeConflictRetry f false (fun _ _ _ _ => noHandler)
       (fun _ _ _ => noHandler) (fun _ n _ _ _ => inr n) "update" "test.foo"
       (Some opCtx) 1000
     = None.
Proof.
  intros opCtx f.
  assert (Hwc : forall k, isWriteConflict f k).
  { intros k. exists (throwWriteConflictException "update"). split; reflexivity. }
  assert (Hmax : Z.of_nat 1000 <= INT_MAX) by (unfold INT_MAX; lia).
  split; [reflexivity|]. split; [exact Hwc|]. split; [exact Hmax|].
  apply (writeConflictRetry_never_gives_up f false (fun _ _ _ _ => noHandler)
           (fun _ _ _ => noHandler) (fun _ n _ _ _ => inr n) "update"
           "test.foo" opCtx 1000 eq_refl Hwc Hmax).
Defined.


